(** * libsteel: register-level model of the peripheral access layer

    The library is a set of C headers of [static inline] functions over
    structs of [volatile uint32_t] registers.  Every function body is a
    short sequence of volatile loads and stores, sometimes inside a busy
    wait.  The model below keeps exactly that: a program is a function on a
    bus state which carries the register file of the peripheral, the values
    the device will present to the next loads of its status registers, and
    the log of every access that reached the bus.

    Integers are in [Z].  A register holds a [uint32_t]: what is stored is
    reduced modulo [2^32], and so is what the device presents.  An argument
    of type [uintN_t] is a [Z] that the statements keep in [0, 2^N). *)

From Stdlib Require Import ZArith List Lia Bool Ascii String.
Import ListNotations.
Local Open Scope Z_scope.

(** ** Fixed-width unsigned integers

    Conversion to [uintN_t] is reduction modulo [2^N]. *)

Definition uint8 (z : Z) : Z := z mod 2 ^ 8.
Definition uint32 (z : Z) : Z := z mod 2 ^ 32.
Definition uint64 (z : Z) : Z := z mod 2 ^ 64.

(** ** Outcomes of a run

    [Blocked]: the device has not (yet) produced the answer the program is
    waiting for; a busy wait that sees no further answer is still spinning.
    [Undefined]: the C program has left defined behaviour (a shift by at
    least the width of the operand, a read past the end of a buffer). *)

Inductive outcome (A : Type) : Type :=
| Ret (a : A)
| Blocked
| Undefined.

Arguments Ret {A} a.
Arguments Blocked {A}.
Arguments Undefined {A}.

(** ** Peripherals

    A peripheral is a struct of registers.  [offset] is the byte offset of a
    register from the base address, as the header documents it; [driven]
    tells the registers whose content is produced by the device (status,
    received data, counters), so that a load returns what the device
    presents and not what software stored last. *)

Class Peripheral (reg file : Type) : Type := {
  offset : reg -> Z;
  driven : reg -> bool;
  get : reg -> file -> Z;
  set : reg -> Z -> file -> file
}.

Section Mmio.
Context {reg file : Type} `{P : Peripheral reg file}.

(** One access on the bus, with the value that was transferred. *)
Inductive access : Type :=
| Load (r : reg) (v : Z)
| Store (r : reg) (v : Z).

Record bus : Type := mkBus {
  regs : file;            (* per register, the value last transferred *)
  answers : list Z;       (* what the device presents to the next loads
                             of its driven registers, in order *)
  log : list access       (* every access so far, oldest first *)
}.

Definition io (A : Type) : Type := bus -> outcome (A * bus).

Definition ret {A} (a : A) : io A := fun b => Ret (a, b).

Definition bind {A B} (m : io A) (k : A -> io B) : io B :=
  fun b =>
    match m b with
    | Ret (a, b') => k a b'
    | Blocked => Blocked
    | Undefined => Undefined
    end.

Definition undefined {A} : io A := fun _ => Undefined.

(** [reg = v;] on a [volatile uint32_t] register: the value is converted
    to 32 bits and one store reaches the bus. *)
Definition store (r : reg) (v : Z) : io unit :=
  fun b =>
    Ret (tt, {| regs := set r (uint32 v) (regs b);
                answers := answers b;
                log := log b ++ [Store r (uint32 v)] |}).

(** Reading a [volatile uint32_t] register: one load reaches the bus.  A
    driven register answers with the next value of the device. *)
Definition load (r : reg) : io Z :=
  fun b =>
    if driven r then
      match answers b with
      | [] => Blocked
      | v :: rest =>
          Ret (uint32 v, {| regs := set r (uint32 v) (regs b);
                            answers := rest;
                            log := log b ++ [Load r (uint32 v)] |})
      end
    else
      Ret (get r (regs b), {| regs := regs b;
                              answers := answers b;
                              log := log b ++ [Load r (get r (regs b))] |}).

(** [while (!cond) ;] with [n] iterations allowed. *)
Fixpoint spin (n : nat) (cond : io bool) : io unit :=
  fun b =>
    match n with
    | O => Blocked
    | S n' =>
        match cond b with
        | Ret (true, b') => Ret (tt, b')
        | Ret (false, b') => spin n' cond b'
        | Blocked => Blocked
        | Undefined => Undefined
        end
    end.

(** [while (!cond) ;] for a condition that polls a driven register: each
    iteration takes one answer of the device, so one more iteration than
    there are answers never cuts the loop short. *)
Definition while_not (cond : io bool) : io unit :=
  fun b => spin (S (List.length (answers b))) cond b.

(** One poll of the register [r]: load it and test the value with [p]. *)
Definition poll (r : reg) (p : Z -> bool) : io bool :=
  bind (load r) (fun v => ret (p v)).

(** The loads that the answers [vs] to the polls of [r] leave in the log. *)
Definition polls (r : reg) (vs : list Z) : list access :=
  map (fun v => Load r (uint32 v)) vs.

(** None of the answers [vs] satisfies [p]. *)
Definition waiting (p : Z -> bool) (vs : list Z) : Prop :=
  Forall (fun v => p (uint32 v) = false) vs.

(** How many of the answers [vs] satisfy [p]. *)
Definition releases (p : Z -> bool) (vs : list Z) : nat :=
  List.length (filter (fun v => p (uint32 v)) vs).

(** Every store of a log comes immediately after an access that satisfies
    [ok]; [prev] tells whether the access before the log does. *)
Fixpoint guarded_from (prev : bool) (ok : access -> bool) (l : list access)
  : bool :=
  match l with
  | [] => true
  | Store _ _ :: l' => prev && guarded_from false ok l'
  | Load r v :: l' => guarded_from (ok (Load r v)) ok l'
  end.

Definition guarded (ok : access -> bool) (l : list access) : bool :=
  guarded_from false ok l.

(** The stores of a log, in order. *)
Fixpoint stores (l : list access) : list (reg * Z) :=
  match l with
  | [] => []
  | Store r v :: l' => (r, v) :: stores l'
  | Load _ _ :: l' => stores l'
  end.

(** The effect of one logged access on the register file. *)
Definition effect (a : access) (s : file) : file :=
  match a with
  | Store r v => set r v s
  | Load r v => if driven r then set r v s else s
  end.

(** The register file after each store of a log, replayed from [s]: the
    observation points of a sequence of writes. *)
Fixpoint snapshots (s : file) (l : list access) : list file :=
  match l with
  | [] => []
  | Store r v :: l' => set r v s :: snapshots (set r v s) l'
  | Load r v :: l' => snapshots (effect (Load r v) s) l'
  end.

(** What a bus analyser sees of an access: direction, byte offset, value. *)
Definition on_wire (a : access) : bool * Z * Z :=
  match a with
  | Load r v => (false, offset r, v)
  | Store r v => (true, offset r, v)
  end.


(** [0x1U << bit] on [unsigned int]: undefined from 32 bits on. *)
Definition one_shl (bit : Z) : io Z :=
  if (0 <=? bit) && (bit <? 32) then ret (uint32 (Z.shiftl 1 bit))
  else undefined.

(** Modelled from the spec: the macro SET_BIT of globals.h, which is not
    among the sources.  It sets one bit of a register in place, which on a
    volatile register is one load followed by one store. *)
Definition SET_BIT (r : reg) (bit : Z) : io unit :=
  bind (one_shl bit) (fun m =>
  bind (load r) (fun v => store r (Z.lor v m))).

(** Modelled from the spec: the macro CLR_BIT of globals.h, which is not
    among the sources.  It clears one bit of a register in place. *)
Definition CLR_BIT (r : reg) (bit : Z) : io unit :=
  bind (one_shl bit) (fun m =>
  bind (load r) (fun v => store r (Z.land v (Z.lnot m)))).

(** Modelled from the spec: the macro INV_BIT of globals.h, which is not
    among the sources.  It inverts one bit of a register in place, a
    read-modify-write. *)
Definition INV_BIT (r : reg) (bit : Z) : io unit :=
  bind (one_shl bit) (fun m =>
  bind (load r) (fun v => store r (Z.lxor v m))).

(** Modelled from the spec: the macro READ_BIT of globals.h, which is not
    among the sources.  It reads a register and gives one of its bits,
    "either 0 or 1" as [gpio_read] documents it; the shift is undefined
    from 32 bits on. *)
Definition READ_BIT (r : reg) (bit : Z) : io Z :=
  bind (load r) (fun v =>
    if (0 <=? bit) && (bit <? 32) then ret (Z.land (Z.shiftr v bit) 1)
    else undefined).

(** Modelled from the spec: the macro SET_FLAG of globals.h, which is not
    among the sources.  It sets the bits of a mask in a register. *)
Definition SET_FLAG (r : reg) (flag : Z) : io unit :=
  bind (load r) (fun v => store r (Z.lor v flag)).

(** Modelled from the spec: the macro CLR_FLAG of globals.h, which is not
    among the sources.  It clears the bits of a mask in a register. *)
Definition CLR_FLAG (r : reg) (flag : Z) : io unit :=
  bind (load r) (fun v => store r (Z.land v (Z.lnot flag))).

(** Modelled from the spec: the macro INV_FLAG of globals.h, which is not
    among the sources.  It inverts the bits of a mask in a register. *)
Definition INV_FLAG (r : reg) (flag : Z) : io unit :=
  bind (load r) (fun v => store r (Z.lxor v flag)).
End Mmio.

Arguments access : clear implicits.
Arguments bus : clear implicits.
Arguments io : clear implicits.

Declare Scope io_scope.
Delimit Scope io_scope with io.
Notation "x <- m ;; k" := (bind m (fun x => k))
  (at level 61, m at next level, right associativity) : io_scope.
Notation "m ;; k" := (bind m (fun _ => k))
  (at level 61, right associativity) : io_scope.
Local Open Scope io_scope.

(** ** GPIO controller (libsteel/gpio.h) *)

Module Gpio.

Record GpioController : Type := {
  IN : Z;    (* offset 0x00 *)
  OE : Z;    (* offset 0x04 *)
  OUT : Z;   (* offset 0x08 *)
  CLR : Z;   (* offset 0x0c *)
  SET : Z    (* offset 0x10 *)
}.

Inductive reg : Type := R_IN | R_OE | R_OUT | R_CLR | R_SET.

#[export] Instance periph : Peripheral reg GpioController := {|
  offset r :=
    match r with
    | R_IN => 0x00 | R_OE => 0x04 | R_OUT => 0x08 | R_CLR => 0x0c | R_SET => 0x10
    end;
  driven r := match r with R_IN => true | _ => false end;
  get r s :=
    match r with
    | R_IN => IN s | R_OE => OE s | R_OUT => OUT s | R_CLR => CLR s | R_SET => SET s
    end;
  set r v s :=
    match r with
    | R_IN => {| IN := v; OE := OE s; OUT := OUT s; CLR := CLR s; SET := SET s |}
    | R_OE => {| IN := IN s; OE := v; OUT := OUT s; CLR := CLR s; SET := SET s |}
    | R_OUT => {| IN := IN s; OE := OE s; OUT := v; CLR := CLR s; SET := SET s |}
    | R_CLR => {| IN := IN s; OE := OE s; OUT := OUT s; CLR := v; SET := SET s |}
    | R_SET => {| IN := IN s; OE := OE s; OUT := OUT s; CLR := CLR s; SET := v |}
    end
|}.

Definition LOW : Z := 0.
Definition HIGH : Z := 1.

(** [0x1U << pin_id] on [unsigned int]: undefined from 32 bits on. *)
Definition shl1 (pin_id : Z) : io reg GpioController Z :=
  if (0 <=? pin_id) && (pin_id <? 32) then ret (uint32 (Z.shiftl 1 pin_id))
  else undefined.

Definition gpio_write (pin_id : Z) (value : Z) : io reg GpioController unit :=
  if value =? LOW then
    (m <- shl1 pin_id ;; store R_CLR m)
  else if value =? HIGH then
    (m <- shl1 pin_id ;; store R_SET m)
  else ret tt.

Definition gpio_set (pin_id : Z) : io reg GpioController unit :=
  m <- shl1 pin_id ;; store R_SET m.

Definition gpio_clear (pin_id : Z) : io reg GpioController unit :=
  m <- shl1 pin_id ;; store R_CLR m.

Definition gpio_read_all : io reg GpioController Z := load R_IN.

Definition gpio_write_group (value_mask : Z) : io reg GpioController unit :=
  store R_OUT value_mask.

Definition gpio_set_group (bit_mask : Z) : io reg GpioController unit :=
  store R_SET bit_mask.

Definition gpio_clear_group (bit_mask : Z) : io reg GpioController unit :=
  store R_CLR bit_mask.

Definition gpio_set_output (pin_id : Z) : io reg GpioController unit :=
  SET_BIT R_OE pin_id.

Definition gpio_set_input (pin_id : Z) : io reg GpioController unit :=
  CLR_BIT R_OE pin_id.

Definition gpio_read (pin_id : Z) : io reg GpioController Z :=
  READ_BIT R_IN pin_id.

Definition gpio_toggle (pin_id : Z) : io reg GpioController unit :=
  INV_BIT R_OUT pin_id.

Definition gpio_is_set (pin_id : Z) : io reg GpioController bool :=
  v <- READ_BIT R_IN pin_id ;; ret (negb (v =? 0)).

Definition gpio_is_clear (pin_id : Z) : io reg GpioController bool :=
  v <- READ_BIT R_IN pin_id ;; ret (v =? 0).

Definition gpio_set_output_group (bit_mask : Z) : io reg GpioController unit :=
  SET_FLAG R_OE bit_mask.

Definition gpio_set_input_group (bit_mask : Z) : io reg GpioController unit :=
  CLR_FLAG R_OE bit_mask.

Definition gpio_toggle_group (bit_mask : Z) : io reg GpioController unit :=
  INV_FLAG R_OUT bit_mask.

(** Modelled from the spec: the reaction of the GPIO device to the stores
    it receives, which is hardware and not part of the library.  The
    header documents it with each function: a store to SET drives the
    flagged pins to 1 and "all remaining pins keep their current values",
    a store to CLR drives the flagged pins to 0, a store to OUT gives the
    value of every pin.  [output_latch out l] is the output latch after
    the accesses [l], starting from [out]. *)
Definition latch_step (out : Z) (a : access reg) : Z :=
  match a with
  | Store R_SET m => Z.lor out m
  | Store R_CLR m => Z.land out (Z.lnot m)
  | Store R_OUT v => v
  | _ => out
  end.

(** The output latch after the accesses [l], from the latch [out]. *)
Definition output_latch (out : Z) (l : list (access reg)) : Z :=
  fold_left latch_step l out.

End Gpio.

(** ** SPI controller (libsteel/spi.h) *)

Module Spi.

Record SpiController : Type := {
  CPOL : Z;          (* offset 0x00 *)
  CPHA : Z;          (* offset 0x04 *)
  CHIP_SELECT : Z;   (* offset 0x08 *)
  CLOCK_CONF : Z;    (* offset 0x0c *)
  WDATA : Z;         (* offset 0x10 *)
  RDATA : Z;         (* offset 0x14 *)
  BUSY : Z           (* offset 0x18 *)
}.

Inductive reg : Type :=
| R_CPOL | R_CPHA | R_CHIP_SELECT | R_CLOCK_CONF | R_WDATA | R_RDATA | R_BUSY.

#[export] Instance periph : Peripheral reg SpiController := {|
  offset r :=
    match r with
    | R_CPOL => 0x00 | R_CPHA => 0x04 | R_CHIP_SELECT => 0x08
    | R_CLOCK_CONF => 0x0c | R_WDATA => 0x10 | R_RDATA => 0x14 | R_BUSY => 0x18
    end;
  driven r := match r with R_RDATA | R_BUSY => true | _ => false end;
  get r s :=
    match r with
    | R_CPOL => CPOL s | R_CPHA => CPHA s | R_CHIP_SELECT => CHIP_SELECT s
    | R_CLOCK_CONF => CLOCK_CONF s | R_WDATA => WDATA s | R_RDATA => RDATA s
    | R_BUSY => BUSY s
    end;
  set r v s :=
    match r with
    | R_CPOL =>
        {| CPOL := v; CPHA := CPHA s; CHIP_SELECT := CHIP_SELECT s;
           CLOCK_CONF := CLOCK_CONF s; WDATA := WDATA s; RDATA := RDATA s;
           BUSY := BUSY s |}
    | R_CPHA =>
        {| CPOL := CPOL s; CPHA := v; CHIP_SELECT := CHIP_SELECT s;
           CLOCK_CONF := CLOCK_CONF s; WDATA := WDATA s; RDATA := RDATA s;
           BUSY := BUSY s |}
    | R_CHIP_SELECT =>
        {| CPOL := CPOL s; CPHA := CPHA s; CHIP_SELECT := v;
           CLOCK_CONF := CLOCK_CONF s; WDATA := WDATA s; RDATA := RDATA s;
           BUSY := BUSY s |}
    | R_CLOCK_CONF =>
        {| CPOL := CPOL s; CPHA := CPHA s; CHIP_SELECT := CHIP_SELECT s;
           CLOCK_CONF := v; WDATA := WDATA s; RDATA := RDATA s;
           BUSY := BUSY s |}
    | R_WDATA =>
        {| CPOL := CPOL s; CPHA := CPHA s; CHIP_SELECT := CHIP_SELECT s;
           CLOCK_CONF := CLOCK_CONF s; WDATA := v; RDATA := RDATA s;
           BUSY := BUSY s |}
    | R_RDATA =>
        {| CPOL := CPOL s; CPHA := CPHA s; CHIP_SELECT := CHIP_SELECT s;
           CLOCK_CONF := CLOCK_CONF s; WDATA := WDATA s; RDATA := v;
           BUSY := BUSY s |}
    | R_BUSY =>
        {| CPOL := CPOL s; CPHA := CPHA s; CHIP_SELECT := CHIP_SELECT s;
           CLOCK_CONF := CLOCK_CONF s; WDATA := WDATA s; RDATA := RDATA s;
           BUSY := v |}
    end
|}.

Local Abbreviation prog := (io reg SpiController).

(* enum SpiMode *)
Definition SPI_MODE0_CPOL0_CPHA0 : Z := 0.
Definition SPI_MODE1_CPOL0_CPHA1 : Z := 1.
Definition SPI_MODE2_CPOL1_CPHA0 : Z := 2.
Definition SPI_MODE3_CPOL1_CPHA1 : Z := 3.

Definition spi_set_cpol (cpol : Z) : prog unit :=
  if cpol <=? 1 then store R_CPOL cpol else ret tt.

Definition spi_set_cpha (cpha : Z) : prog unit :=
  if cpha <=? 1 then store R_CPHA cpha else ret tt.

Definition spi_get_cpol : prog Z := load R_CPOL.

Definition spi_get_cpha : prog Z := load R_CPHA.

Definition spi_set_mode (mode : Z) : prog unit :=
  if mode =? SPI_MODE0_CPOL0_CPHA0 then (spi_set_cpol 0 ;; spi_set_cpha 0)
  else if mode =? SPI_MODE1_CPOL0_CPHA1 then (spi_set_cpol 0 ;; spi_set_cpha 1)
  else if mode =? SPI_MODE2_CPOL1_CPHA0 then (spi_set_cpol 1 ;; spi_set_cpha 0)
  else if mode =? SPI_MODE3_CPOL1_CPHA1 then (spi_set_cpol 1 ;; spi_set_cpha 1)
  else ret tt.

(** [(spi->CPHA << 1) | spi->CPOL] on [uint32_t]; the two loads are taken
    left to right. *)
Definition spi_get_mode : prog Z :=
  cpha <- load R_CPHA ;;
  cpol <- load R_CPOL ;;
  ret (Z.lor (uint32 (Z.shiftl cpha 1)) cpol).

Definition spi_select (peripheral_id : Z) : prog unit :=
  store R_CHIP_SELECT peripheral_id.

Definition spi_deselect : prog unit :=
  store R_CHIP_SELECT 0xffffffff.

(** The function returns [uint8_t]. *)
Definition spi_get_cs : prog Z :=
  cs <- load R_CHIP_SELECT ;; ret (uint8 cs).

Definition spi_is_ready : prog bool :=
  busy <- load R_BUSY ;; ret (busy =? 0).

Definition spi_wait_ready : prog unit :=
  while_not spi_is_ready.

Definition spi_set_clock (conf : Z) : prog unit :=
  store R_CLOCK_CONF conf.

Definition spi_get_clock : prog Z :=
  conf <- load R_CLOCK_CONF ;; ret (uint8 conf).

Definition spi_write (wdata : Z) : prog unit :=
  store R_WDATA wdata ;;
  spi_wait_ready.

(** The function returns [uint8_t]. *)
Definition spi_transfer (wdata : Z) : prog Z :=
  store R_WDATA wdata ;;
  spi_wait_ready ;;
  rdata <- load R_RDATA ;;
  ret (uint8 rdata).

(** The invariant of the data model on the two clock registers. *)
Definition clock_fields_ok (s : SpiController) : Prop :=
  (CPOL s = 0 \/ CPOL s = 1) /\ (CPHA s = 0 \/ CPHA s = 1).

(** The registers once [wdata] is stored and the controller is seen ready. *)
Definition transferred (s : SpiController) (wdata : Z) : SpiController :=
  {| CPOL := CPOL s; CPHA := CPHA s; CHIP_SELECT := CHIP_SELECT s;
     CLOCK_CONF := CLOCK_CONF s; WDATA := wdata; RDATA := RDATA s; BUSY := 0 |}.

End Spi.

(** ** MTimer controller (mtimer.h, second part of libsteel/spi.h) *)

Module MTimer.

Record MTimerController : Type := {
  CR : Z;          (* offset 0x00 *)
  MTIMEL : Z;      (* offset 0x04 *)
  MTIMEH : Z;      (* offset 0x08 *)
  MTIMECMPL : Z;   (* offset 0x0c *)
  MTIMECMPH : Z    (* offset 0x10 *)
}.

Inductive reg : Type := R_CR | R_MTIMEL | R_MTIMEH | R_MTIMECMPL | R_MTIMECMPH.

#[export] Instance periph : Peripheral reg MTimerController := {|
  offset r :=
    match r with
    | R_CR => 0x00 | R_MTIMEL => 0x04 | R_MTIMEH => 0x08
    | R_MTIMECMPL => 0x0c | R_MTIMECMPH => 0x10
    end;
  driven r := match r with R_MTIMEL | R_MTIMEH => true | _ => false end;
  get r s :=
    match r with
    | R_CR => CR s | R_MTIMEL => MTIMEL s | R_MTIMEH => MTIMEH s
    | R_MTIMECMPL => MTIMECMPL s | R_MTIMECMPH => MTIMECMPH s
    end;
  set r v s :=
    match r with
    | R_CR =>
        {| CR := v; MTIMEL := MTIMEL s; MTIMEH := MTIMEH s;
           MTIMECMPL := MTIMECMPL s; MTIMECMPH := MTIMECMPH s |}
    | R_MTIMEL =>
        {| CR := CR s; MTIMEL := v; MTIMEH := MTIMEH s;
           MTIMECMPL := MTIMECMPL s; MTIMECMPH := MTIMECMPH s |}
    | R_MTIMEH =>
        {| CR := CR s; MTIMEL := MTIMEL s; MTIMEH := v;
           MTIMECMPL := MTIMECMPL s; MTIMECMPH := MTIMECMPH s |}
    | R_MTIMECMPL =>
        {| CR := CR s; MTIMEL := MTIMEL s; MTIMEH := MTIMEH s;
           MTIMECMPL := v; MTIMECMPH := MTIMECMPH s |}
    | R_MTIMECMPH =>
        {| CR := CR s; MTIMEL := MTIMEL s; MTIMEH := MTIMEH s;
           MTIMECMPL := MTIMECMPL s; MTIMECMPH := v |}
    end
|}.

Local Abbreviation prog := (io reg MTimerController).

Definition mtimer_set_counter (new_value : Z) : prog unit :=
  store R_MTIMEL (Z.land new_value 0xFFFFFFFF) ;;
  store R_MTIMEH (Z.shiftr new_value 32).

(** [cnt_l] is a [uint32_t], [cnt_h] a [uint64_t], and so is the result. *)
Definition mtimer_get_counter : prog Z :=
  cnt_l <- load R_MTIMEL ;;
  cnt_h <- load R_MTIMEH ;;
  ret (Z.lor (uint64 (Z.shiftl cnt_h 31)) cnt_l).

Definition mtimer_clear_counter : prog unit :=
  store R_MTIMEL 0 ;;
  store R_MTIMEH 0.

Definition mtimer_set_compare (new_value : Z) : prog unit :=
  store R_MTIMECMPL (-1) ;;
  store R_MTIMECMPH (Z.shiftr new_value 32) ;;
  store R_MTIMECMPL (Z.land new_value 0xFFFFFFFF).





(** The logical 64-bit values of the data model. *)
Definition counter_value (s : MTimerController) : Z :=
  Z.lor (Z.shiftl (MTIMEH s) 32) (MTIMEL s).

Definition compare_value (s : MTimerController) : Z :=
  Z.lor (Z.shiftl (MTIMECMPH s) 32) (MTIMECMPL s).

(** Every register holds a 32-bit value. *)
Definition word32 (z : Z) : Prop := 0 <= z < 2 ^ 32.

End MTimer.

(** ** Strings in memory

    A [const char *] points to the bytes of a buffer; a C string is the
    bytes up to the first null byte. *)

Definition char_code (c : ascii) : Z := Z.of_N (N_of_ascii c).

Definition c_str (s : string) : list ascii :=
  list_ascii_of_string s ++ [zero].

(** ** UART controller (uart.h, the variant with RXSTATUS) *)

Module Uart.

Record UartController : Type := {
  WDATA : Z;      (* offset 0x00 *)
  RDATA : Z;      (* offset 0x04 *)
  READY : Z;      (* offset 0x08 *)
  RXSTATUS : Z    (* offset 0x0c *)
}.

Inductive reg : Type := R_WDATA | R_RDATA | R_READY | R_RXSTATUS.

#[export] Instance periph : Peripheral reg UartController := {|
  offset r :=
    match r with
    | R_WDATA => 0x00 | R_RDATA => 0x04 | R_READY => 0x08 | R_RXSTATUS => 0x0c
    end;
  driven r := match r with R_WDATA => false | _ => true end;
  get r s :=
    match r with
    | R_WDATA => WDATA s | R_RDATA => RDATA s | R_READY => READY s
    | R_RXSTATUS => RXSTATUS s
    end;
  set r v s :=
    match r with
    | R_WDATA =>
        {| WDATA := v; RDATA := RDATA s; READY := READY s; RXSTATUS := RXSTATUS s |}
    | R_RDATA =>
        {| WDATA := WDATA s; RDATA := v; READY := READY s; RXSTATUS := RXSTATUS s |}
    | R_READY =>
        {| WDATA := WDATA s; RDATA := RDATA s; READY := v; RXSTATUS := RXSTATUS s |}
    | R_RXSTATUS =>
        {| WDATA := WDATA s; RDATA := RDATA s; READY := READY s; RXSTATUS := v |}
    end
|}.

Local Abbreviation prog := (io reg UartController).

Definition uart_ready_to_send : prog bool :=
  ready <- load R_READY ;; ret (ready =? 1).

Definition uart_read : prog Z :=
  rdata <- load R_RDATA ;; ret (uint8 rdata).

Definition uart_write (data : Z) : prog unit :=
  while_not uart_ready_to_send ;;
  store R_WDATA data.

(** [str] is the buffer the pointer points into. *)
Fixpoint uart_write_string (str : list ascii) : prog unit :=
  match str with
  | [] => undefined
  | c :: str' =>
      if Ascii.eqb c zero then ret tt
      else (uart_write (char_code c) ;; uart_write_string str')
  end.

Definition uart_data_received : prog bool :=
  rx <- load R_RXSTATUS ;; ret (rx =? 1).

(** A load of READY that reads 1. *)
Definition ready_poll (a : access reg) : bool :=
  match a with
  | Load R_READY v => v =? 1
  | _ => false
  end.

End Uart.

(** ** UART device (uart.h, the variant with three registers) *)

Module UartDev.

Record UartController : Type := {
  WDATA : Z;      (* offset 0x00 *)
  RDATA : Z;      (* offset 0x04 *)
  READY : Z       (* offset 0x08 *)
}.

Inductive reg : Type := R_WDATA | R_RDATA | R_READY.

#[export] Instance periph : Peripheral reg UartController := {|
  offset r :=
    match r with
    | R_WDATA => 0x00 | R_RDATA => 0x04 | R_READY => 0x08
    end;
  driven r := match r with R_WDATA => false | _ => true end;
  get r s :=
    match r with
    | R_WDATA => WDATA s | R_RDATA => RDATA s | R_READY => READY s
    end;
  set r v s :=
    match r with
    | R_WDATA => {| WDATA := v; RDATA := RDATA s; READY := READY s |}
    | R_RDATA => {| WDATA := WDATA s; RDATA := v; READY := READY s |}
    | R_READY => {| WDATA := WDATA s; RDATA := RDATA s; READY := v |}
    end
|}.

Local Abbreviation prog := (io reg UartController).

Definition uart_ready : prog bool :=
  ready <- load R_READY ;; ret (ready =? 1).

Definition uart_read : prog Z :=
  rdata <- load R_RDATA ;; ret (uint8 rdata).

Definition uart_write (data : Z) : prog unit :=
  while_not uart_ready ;;
  store R_WDATA data.

Fixpoint uart_write_string (str : list ascii) : prog unit :=
  match str with
  | [] => undefined
  | c :: str' =>
      if Ascii.eqb c zero then ret tt
      else (uart_write (char_code c) ;; uart_write_string str')
  end.

End UartDev.

(** ** The two UART variants side by side

    Two bus states of the two variants are [similar] when the device
    answers the same, the same accesses went over the wire, and the three
    registers they share hold the same values. *)

Definition similar (x : bus Uart.reg Uart.UartController)
  (y : bus UartDev.reg UartDev.UartController) : Prop :=
  answers x = answers y /\
  map (on_wire (P := Uart.periph)) (log x)
    = map (on_wire (P := UartDev.periph)) (log y) /\
  Uart.WDATA (regs x) = UartDev.WDATA (regs y) /\
  Uart.RDATA (regs x) = UartDev.RDATA (regs y) /\
  Uart.READY (regs x) = UartDev.READY (regs y).

Definition same_outcome {A : Type}
  (x : outcome (A * bus Uart.reg Uart.UartController))
  (y : outcome (A * bus UartDev.reg UartDev.UartController)) : Prop :=
  match x, y with
  | Ret (a, bx), Ret (a', by') => a = a' /\ similar bx by'
  | Blocked, Blocked => True
  | Undefined, Undefined => True
  | _, _ => False
  end.

(** * Properties *)

(** ** Words *)

Lemma uint32_small (z : Z) : 0 <= z < 2 ^ 32 -> uint32 z = z.
Proof. intros H. unfold uint32. apply Z.mod_small. exact H. Qed.

Lemma uint8_small (z : Z) : 0 <= z < 2 ^ 8 -> uint8 z = z.
Proof. intros H. unfold uint8. apply Z.mod_small. exact H. Qed.

(** A high word and a low word share no bit, so joining them with [|] is
    the sum. *)
Lemma join_words (h l : Z) :
  0 <= l < 2 ^ 32 -> Z.lor (Z.shiftl h 32) l = h * 2 ^ 32 + l.
Proof.
  intros Hl.
  assert (Hdisj : Z.land (Z.shiftl h 32) l = 0).
  { apply Z.bits_inj'. intros i Hi.
    rewrite Z.land_spec, Z.bits_0.
    destruct (Z.ltb_spec i 32) as [Hlt | Hge].
    - rewrite Z.shiftl_spec_low by exact Hlt. reflexivity.
    - rewrite <- (Z.mod_small l (2 ^ 32)) by exact Hl.
      rewrite Z.mod_pow2_bits_high by lia.
      apply andb_false_r. }
  pose proof (Z.add_lor_land (Z.shiftl h 32) l) as Hadd.
  rewrite Hdisj, Z.add_0_r in Hadd.
  rewrite Hadd, Z.shiftl_mul_pow2 by lia.
  reflexivity.
Qed.

Lemma shl1_word (n : Z) : 0 <= n < 32 -> uint32 (Z.shiftl 1 n) = Z.shiftl 1 n.
Proof.
  intros Hn. apply uint32_small.
  rewrite Z.shiftl_1_l. split.
  - apply Z.pow_nonneg. lia.
  - apply Z.pow_lt_mono_r; lia.
Qed.

(** ** GPIO *)

Section GpioProperties.
Import Gpio.

Lemma shl1_defined (pin_id : Z) (b : bus reg GpioController) :
  0 <= pin_id < 32 -> shl1 pin_id b = Ret (Z.shiftl 1 pin_id, b).
Proof.
  intros Hp. unfold shl1.
  replace ((0 <=? pin_id) && (pin_id <? 32))%bool with true.
  - unfold ret. rewrite shl1_word by exact Hp. reflexivity.
  - symmetry. apply andb_true_iff. split; [apply Z.leb_le | apply Z.ltb_lt]; lia.
Qed.

Lemma output_latch_app (out : Z) (l1 l2 : list (access reg)) :
  output_latch out (l1 ++ l2) = output_latch (output_latch out l1) l2.
Proof. unfold output_latch. apply fold_left_app. Qed.

(** C7. [gpio_write] with LOW is one store of [1 << pin_id] to CLR, with
    HIGH one store of [1 << pin_id] to SET (for the pins 0..31, for which
    the shift is defined), and with any other value it does nothing at all:
    no access reaches the bus and every register keeps its content. *)
Theorem gpio_write_stores (b : bus reg GpioController) (pin_id value : Z) :
  (0 <= pin_id < 32 ->
   gpio_write pin_id LOW b =
     Ret (tt, {| regs := {| IN := IN (regs b); OE := OE (regs b);
                            OUT := OUT (regs b); CLR := Z.shiftl 1 pin_id;
                            SET := SET (regs b) |};
                 answers := answers b;
                 log := log b ++ [Store R_CLR (Z.shiftl 1 pin_id)] |}) /\
   gpio_write pin_id HIGH b =
     Ret (tt, {| regs := {| IN := IN (regs b); OE := OE (regs b);
                            OUT := OUT (regs b); CLR := CLR (regs b);
                            SET := Z.shiftl 1 pin_id |};
                 answers := answers b;
                 log := log b ++ [Store R_SET (Z.shiftl 1 pin_id)] |})) /\
  (value <> LOW -> value <> HIGH -> gpio_write pin_id value b = Ret (tt, b)).
Proof.
  split.
  - intros Hp. unfold gpio_write. simpl.
    unfold bind. rewrite (shl1_defined pin_id b Hp).
    unfold store. rewrite shl1_word by exact Hp. simpl. split; reflexivity.
  - intros Hlow Hhigh. unfold gpio_write.
    destruct (Z.eqb_spec value LOW) as [E | _]; [contradiction |].
    destruct (Z.eqb_spec value HIGH) as [E | _]; [contradiction |].
    reflexivity.
Qed.

Lemma gpio_write_stores_witness :
  let b := {| regs := {| IN := 0; OE := 0xff; OUT := 0; CLR := 0; SET := 0 |};
              answers := []; log := [] |} in
  0 <= 4 < 32 /\ 2 <> LOW /\ 2 <> HIGH /\
  gpio_write 4 LOW b =
    Ret (tt, {| regs := {| IN := 0; OE := 0xff; OUT := 0; CLR := 16; SET := 0 |};
                answers := []; log := [Store R_CLR 16] |}) /\
  gpio_write 4 2 b = Ret (tt, b).
Proof.
  intros b.
  assert (Hp : 0 <= 4 < 32) by lia.
  assert (Hl : 2 <> LOW) by (unfold LOW; lia).
  assert (Hh : 2 <> HIGH) by (unfold HIGH; lia).
  destruct (gpio_write_stores b 4 2) as [Hdef Hnop].
  destruct (Hdef Hp) as [Hlow _].
  exact (conj Hp (conj Hl (conj Hh (conj Hlow (Hnop Hl Hh))))).
Defined.

(** C7, as stated for every pin_id, fails beyond the pins 0..31: with
    pin_id = 32, a value of the parameter's type, [0x1U << pin_id] shifts
    by the width of its operand, so that [gpio_write] with HIGH or LOW has
    no defined behaviour and is no single store of [1 << pin_id]. *)
Lemma gpio_write_pin_32_has_no_defined_store :
  let b := {| regs := {| IN := 0; OE := 0xff; OUT := 0; CLR := 0; SET := 0 |};
              answers := []; log := [] |} in
  gpio_write 32 HIGH b = Undefined /\
  gpio_write 32 LOW b = Undefined /\
  gpio_write 32 HIGH b <>
    Ret (tt, {| regs := {| IN := 0; OE := 0xff; OUT := 0; CLR := 0;
                           SET := uint32 (Z.shiftl 1 32) |};
                answers := [];
                log := [Store R_SET (uint32 (Z.shiftl 1 32))] |}).
Proof.
  intros b. split; [reflexivity |]. split; [reflexivity |].
  intros H. discriminate H.
Qed.

(** C6. [gpio_set_group] is one store of the mask to SET: the log grows by
    exactly that store, SET holds the mask, and IN, OE, OUT and CLR keep
    their content.  On the pins, the store drives to 1 exactly the pins
    flagged in the mask; every pin outside the mask keeps its level. *)
Theorem gpio_set_group_single_store
  (b : bus reg GpioController) (bit_mask : Z) :
  0 <= bit_mask < 2 ^ 32 ->
  exists b',
    gpio_set_group bit_mask b = Ret (tt, b') /\
    log b' = log b ++ [Store R_SET bit_mask] /\
    regs b' = {| IN := IN (regs b); OE := OE (regs b); OUT := OUT (regs b);
                 CLR := CLR (regs b); SET := bit_mask |} /\
    answers b' = answers b /\
    forall out i,
      Z.testbit (output_latch out (log b')) i =
        if Z.testbit bit_mask i then true
        else Z.testbit (output_latch out (log b)) i.
Proof.
  intros Hm. eexists. split.
  - unfold gpio_set_group, store. rewrite uint32_small by exact Hm. reflexivity.
  - simpl. repeat split.
    intros out i. rewrite output_latch_app. simpl.
    rewrite Z.lor_spec.
    destruct (Z.testbit bit_mask i).
    + apply orb_true_r.
    + apply orb_false_r.
Qed.

Lemma gpio_set_group_single_store_witness :
  let b := {| regs := {| IN := 0; OE := 0xff; OUT := 0x81; CLR := 0; SET := 0 |};
              answers := []; log := [Store R_OUT 0x81] |} in
  0 <= 0x12 < 2 ^ 32 /\
  exists b',
    gpio_set_group 0x12 b = Ret (tt, b') /\
    log b' = [Store R_OUT 0x81; Store R_SET 0x12] /\
    output_latch 0 (log b') = 0x93.
Proof.
  intros b.
  assert (Hm : 0 <= 0x12 < 2 ^ 32) by lia.
  split; [exact Hm |].
  destruct (gpio_set_group_single_store b 0x12 Hm) as (b' & Hrun & Hlog & _).
  exists b'. split; [exact Hrun |].
  split; [exact Hlog |].
  rewrite Hlog. reflexivity.
Defined.

End GpioProperties.

(** ** SPI: configuration registers *)

Section SpiProperties.
Import Spi.




(** C3. The round trip through [spi_set_mode] and [spi_get_mode] gives back
    modes 0 and 3 but exchanges modes 1 and 2: [spi_set_mode] takes CPOL as
    the high bit of the mode, as [enum SpiMode] documents it, while
    [spi_get_mode] puts CPHA in the high bit. *)
Theorem spi_mode_round_trip_exchanges_1_and_2 (b : bus reg SpiController) :
  (exists b', (spi_set_mode SPI_MODE0_CPOL0_CPHA0 ;; spi_get_mode) b
                = Ret (SPI_MODE0_CPOL0_CPHA0, b') /\
              CPOL (regs b') = 0 /\ CPHA (regs b') = 0) /\
  (exists b', (spi_set_mode SPI_MODE1_CPOL0_CPHA1 ;; spi_get_mode) b
                = Ret (SPI_MODE2_CPOL1_CPHA0, b') /\
              CPOL (regs b') = 0 /\ CPHA (regs b') = 1) /\
  (exists b', (spi_set_mode SPI_MODE2_CPOL1_CPHA0 ;; spi_get_mode) b
                = Ret (SPI_MODE1_CPOL0_CPHA1, b') /\
              CPOL (regs b') = 1 /\ CPHA (regs b') = 0) /\
  (exists b', (spi_set_mode SPI_MODE3_CPOL1_CPHA1 ;; spi_get_mode) b
                = Ret (SPI_MODE3_CPOL1_CPHA1, b') /\
              CPOL (regs b') = 1 /\ CPHA (regs b') = 1).
Proof.
  repeat split; eexists; (split; [reflexivity | split; reflexivity]).
Qed.

(** C9. After [spi_deselect], [spi_get_cs] returns 0xff; after
    [spi_select] with an identifier of type [uint8_t], it returns that
    identifier. *)
Theorem spi_chip_select_round_trip (b : bus reg SpiController) (id : Z) :
  0 <= id < 2 ^ 8 ->
  (exists b', (spi_deselect ;; spi_get_cs) b = Ret (0xff, b') /\
              CHIP_SELECT (regs b') = 0xffffffff) /\
  (exists b', (spi_select id ;; spi_get_cs) b = Ret (id, b') /\
              CHIP_SELECT (regs b') = id).
Proof.
  intros Hid. split.
  - eexists. split; reflexivity.
  - eexists. unfold spi_select, spi_get_cs, bind, store, load, ret. simpl.
    rewrite (uint32_small id) by lia.
    rewrite (uint8_small id) by exact Hid.
    split; reflexivity.
Qed.

Lemma spi_chip_select_round_trip_witness :
  let b := {| regs := {| CPOL := 0; CPHA := 0; CHIP_SELECT := 0xffffffff;
                         CLOCK_CONF := 0; WDATA := 0; RDATA := 0; BUSY := 0 |};
              answers := []; log := [] |} in
  0 <= 3 < 2 ^ 8 /\
  (exists b', (spi_deselect ;; spi_get_cs) b = Ret (0xff, b') /\
              CHIP_SELECT (regs b') = 0xffffffff) /\
  (exists b', (spi_select 3 ;; spi_get_cs) b = Ret (3, b') /\
              CHIP_SELECT (regs b') = 3).
Proof.
  intros b.
  assert (Hid : 0 <= 3 < 2 ^ 8) by lia.
  exact (conj Hid (spi_chip_select_round_trip b 3 Hid)).
Defined.

End SpiProperties.

(** ** Busy waits

    A busy wait polls one driven register [r] until the value read
    satisfies [p].  It returns at the first answer of the device that
    satisfies [p], and not before. *)

Section Polling.
Context {reg file : Type} `{P : Peripheral reg file}.
Variable r : reg.
Variable p : Z -> bool.
Hypothesis r_driven : driven r = true.
Hypothesis set_twice : forall v w s, set r v (set r w s) = set r v s.

Lemma poll_run (s : file) (v : Z) (rest : list Z) (lg : list (access reg)) :
  poll r p {| regs := s; answers := v :: rest; log := lg |} =
    Ret (p (uint32 v), {| regs := set r (uint32 v) s; answers := rest;
                          log := lg ++ [Load r (uint32 v)] |}).
Proof. unfold poll, bind, load, ret. simpl. rewrite r_driven. reflexivity. Qed.

Lemma poll_blocked (s : file) (lg : list (access reg)) :
  poll r p {| regs := s; answers := []; log := lg |} = Blocked.
Proof. unfold poll, bind, load. simpl. rewrite r_driven. reflexivity. Qed.

Lemma spin_returns (waits : list Z) :
  forall (n : nat) (s : file) (lg : list (access reg)) (v : Z) (rest : list Z),
    waiting p waits -> p (uint32 v) = true -> (List.length waits < n)%nat ->
    spin n (poll r p) {| regs := s; answers := waits ++ v :: rest; log := lg |} =
      Ret (tt, {| regs := set r (uint32 v) s; answers := rest;
                  log := lg ++ polls r (waits ++ [v]) |}).
Proof.
  induction waits as [| w waits IH]; intros n s lg v rest Hw Hv Hn.
  - destruct n as [| n]; [simpl in Hn; lia |].
    simpl. rewrite poll_run, Hv. reflexivity.
  - destruct n as [| n]; [simpl in Hn; lia |].
    inversion Hw as [| w' waits' Hw1 Hw2]; subst.
    simpl. rewrite poll_run, Hw1.
    rewrite IH by (try assumption; simpl in Hn; lia).
    rewrite set_twice.
    unfold polls. simpl. rewrite <- app_assoc. reflexivity.
Qed.

Lemma spin_blocked (waits : list Z) :
  forall (n : nat) (s : file) (lg : list (access reg)),
    waiting p waits ->
    spin n (poll r p) {| regs := s; answers := waits; log := lg |} = Blocked.
Proof.
  induction waits as [| w waits IH]; intros n s lg Hw.
  - destruct n as [| n]; [reflexivity |].
    simpl. rewrite poll_blocked. reflexivity.
  - destruct n as [| n]; [reflexivity |].
    inversion Hw as [| w' waits' Hw1 Hw2]; subst.
    simpl. rewrite poll_run, Hw1. apply IH. exact Hw2.
Qed.

Lemma while_not_returns (waits : list Z) (s : file) (lg : list (access reg))
  (v : Z) (rest : list Z) :
  waiting p waits -> p (uint32 v) = true ->
  while_not (poll r p) {| regs := s; answers := waits ++ v :: rest; log := lg |} =
    Ret (tt, {| regs := set r (uint32 v) s; answers := rest;
                log := lg ++ polls r (waits ++ [v]) |}).
Proof.
  intros Hw Hv. unfold while_not. apply spin_returns; try assumption.
  simpl. rewrite length_app. simpl. lia.
Qed.

Lemma while_not_blocked (waits : list Z) (s : file) (lg : list (access reg)) :
  waiting p waits ->
  while_not (poll r p) {| regs := s; answers := waits; log := lg |} = Blocked.
Proof. intros Hw. unfold while_not. apply spin_blocked. exact Hw. Qed.

(** Every list of answers either keeps the loop waiting to its end or has
    a first answer that releases it. *)
Lemma first_release (vs : list Z) :
  waiting p vs \/
  exists waits v rest,
    vs = waits ++ v :: rest /\ waiting p waits /\ p (uint32 v) = true.
Proof.
  induction vs as [| x vs IH].
  - left. constructor.
  - destruct (p (uint32 x)) eqn:Hx.
    + right. exists [], x, vs. repeat split; [constructor | exact Hx].
    + destruct IH as [Hw | (waits & v & rest & Heq & Hw & Hv)].
      * left. constructor; assumption.
      * right. exists (x :: waits), v, rest. subst vs.
        repeat split; [constructor; assumption | exact Hv].
Qed.

End Polling.

(** ** SPI: transfers and the clock-field invariant *)

Section SpiTransfers.
Import Spi.

Lemma spi_waiting_iff (vs : list Z) :
  waiting (fun busy => busy =? 0) vs <-> Forall (fun v => uint32 v <> 0) vs.
Proof.
  unfold waiting. rewrite !Forall_forall.
  split; intros H v Hv; specialize (H v Hv).
  - apply Z.eqb_neq. exact H.
  - apply Z.eqb_neq. exact H.
Qed.

Lemma spi_wait_ready_returns
  (s : SpiController) (lg : list (access reg)) (waits : list Z) (z : Z)
  (rest : list Z) :
  Forall (fun v => uint32 v <> 0) waits -> uint32 z = 0 ->
  spi_wait_ready {| regs := s; answers := waits ++ z :: rest; log := lg |} =
    Ret (tt, {| regs := set R_BUSY 0 s; answers := rest;
                log := lg ++ polls R_BUSY waits ++ [Load R_BUSY 0] |}).
Proof.
  intros Hw Hz.
  change spi_wait_ready with (while_not (poll R_BUSY (fun busy => busy =? 0))).
  rewrite while_not_returns.
  - rewrite Hz. unfold polls. rewrite map_app. simpl. rewrite Hz. reflexivity.
  - reflexivity.
  - reflexivity.
  - apply spi_waiting_iff. exact Hw.
  - rewrite Hz. reflexivity.
Qed.

Lemma spi_wait_ready_blocked
  (s : SpiController) (lg : list (access reg)) (waits : list Z) :
  Forall (fun v => uint32 v <> 0) waits ->
  spi_wait_ready {| regs := s; answers := waits; log := lg |} = Blocked.
Proof.
  intros Hw.
  change spi_wait_ready with (while_not (poll R_BUSY (fun busy => busy =? 0))).
  apply while_not_blocked; [reflexivity | apply spi_waiting_iff; exact Hw].
Qed.

Lemma spi_write_returns
  (s : SpiController) (lg : list (access reg)) (wdata : Z) (waits : list Z)
  (z : Z) (rest : list Z) :
  Forall (fun v => uint32 v <> 0) waits -> uint32 z = 0 ->
  spi_write wdata {| regs := s; answers := waits ++ z :: rest; log := lg |} =
    Ret (tt, {| regs := transferred s (uint32 wdata); answers := rest;
                log := lg ++ Store R_WDATA (uint32 wdata)
                             :: polls R_BUSY waits ++ [Load R_BUSY 0] |}).
Proof.
  intros Hw Hz. unfold spi_write, bind, store. simpl.
  rewrite spi_wait_ready_returns by assumption.
  rewrite <- app_assoc. reflexivity.
Qed.

Lemma spi_write_blocked
  (s : SpiController) (lg : list (access reg)) (wdata : Z) (waits : list Z) :
  Forall (fun v => uint32 v <> 0) waits ->
  spi_write wdata {| regs := s; answers := waits; log := lg |} = Blocked.
Proof.
  intros Hw. unfold spi_write, bind, store. simpl.
  rewrite spi_wait_ready_blocked by assumption. reflexivity.
Qed.

Lemma spi_transfer_returns
  (s : SpiController) (lg : list (access reg)) (wdata : Z) (waits : list Z)
  (z r : Z) (rest : list Z) :
  Forall (fun v => uint32 v <> 0) waits -> uint32 z = 0 ->
  spi_transfer wdata
    {| regs := s; answers := waits ++ z :: r :: rest; log := lg |} =
    Ret (uint8 (uint32 r),
         {| regs := set R_RDATA (uint32 r) (transferred s (uint32 wdata));
            answers := rest;
            log := lg ++ Store R_WDATA (uint32 wdata)
                         :: polls R_BUSY waits
                         ++ [Load R_BUSY 0; Load R_RDATA (uint32 r)] |}).
Proof.
  intros Hw Hz. unfold spi_transfer, bind, store. simpl.
  rewrite spi_wait_ready_returns by assumption.
  unfold load, ret. simpl.
  rewrite <- !app_assoc. reflexivity.
Qed.

Lemma spi_transfer_blocked
  (s : SpiController) (lg : list (access reg)) (wdata : Z) (waits : list Z) :
  Forall (fun v => uint32 v <> 0) waits ->
  spi_transfer wdata {| regs := s; answers := waits; log := lg |} = Blocked.
Proof.
  intros Hw. unfold spi_transfer, bind, store. simpl.
  rewrite spi_wait_ready_blocked by assumption. reflexivity.
Qed.

(** C4. [spi_write] stores the byte to WDATA first and then polls BUSY; it
    returns at the first poll that reads 0, so that BUSY is 0 on return,
    and it is still blocked as long as every poll reads a non-zero value.
    [spi_transfer] does the same and then loads RDATA once; it returns that
    value converted to [uint8_t], its low eight bits, which is the value
    read whenever that value is a byte. *)
Theorem spi_write_transfer_block_until_ready
  (s : SpiController) (lg : list (access reg)) (wdata : Z) (waits : list Z)
  (z r : Z) (rest : list Z) :
  0 <= wdata < 2 ^ 8 ->
  Forall (fun v => uint32 v <> 0) waits -> uint32 z = 0 ->
  spi_write wdata {| regs := s; answers := waits ++ z :: rest; log := lg |} =
    Ret (tt, {| regs := transferred s wdata; answers := rest;
                log := lg ++ Store R_WDATA wdata
                             :: polls R_BUSY waits ++ [Load R_BUSY 0] |}) /\
  spi_write wdata {| regs := s; answers := waits; log := lg |} = Blocked /\
  spi_transfer wdata
    {| regs := s; answers := waits ++ z :: r :: rest; log := lg |} =
    Ret (uint8 (uint32 r),
         {| regs := set R_RDATA (uint32 r) (transferred s wdata);
            answers := rest;
            log := lg ++ Store R_WDATA wdata
                         :: polls R_BUSY waits
                         ++ [Load R_BUSY 0; Load R_RDATA (uint32 r)] |}) /\
  spi_transfer wdata {| regs := s; answers := waits; log := lg |} = Blocked /\
  (0 <= r < 2 ^ 8 -> uint8 (uint32 r) = r).
Proof.
  intros Hb Hw Hz.
  rewrite spi_write_returns, spi_transfer_returns by assumption.
  rewrite (uint32_small wdata) by lia.
  repeat split.
  - apply spi_write_blocked. exact Hw.
  - apply spi_transfer_blocked. exact Hw.
  - intros Hr. rewrite (uint32_small r) by lia. apply uint8_small. exact Hr.
Qed.

Lemma spi_write_transfer_block_until_ready_witness :
  let s := {| CPOL := 0; CPHA := 0; CHIP_SELECT := 0; CLOCK_CONF := 0;
              WDATA := 0; RDATA := 0; BUSY := 0 |} in
  0 <= 0x5a < 2 ^ 8 /\
  Forall (fun v => uint32 v <> 0) [1; 1] /\ uint32 0 = 0 /\
  spi_write 0x5a {| regs := s; answers := [1; 1; 0]; log := [] |} =
    Ret (tt, {| regs := transferred s 0x5a; answers := [];
                log := [Store R_WDATA 0x5a; Load R_BUSY 1; Load R_BUSY 1;
                        Load R_BUSY 0] |}) /\
  spi_transfer 0x5a {| regs := s; answers := [1; 1; 0; 0xa5]; log := [] |} =
    Ret (0xa5, {| regs := set R_RDATA 0xa5 (transferred s 0x5a); answers := [];
                  log := [Store R_WDATA 0x5a; Load R_BUSY 1; Load R_BUSY 1;
                          Load R_BUSY 0; Load R_RDATA 0xa5] |}).
Proof.
  intros s.
  assert (Hb : 0 <= 0x5a < 2 ^ 8) by lia.
  assert (Hw : Forall (fun v => uint32 v <> 0) [1; 1]).
  { apply Forall_cons; [intros H; vm_compute in H; discriminate H |].
    apply Forall_cons; [intros H; vm_compute in H; discriminate H |].
    apply Forall_nil. }
  assert (Hz : uint32 0 = 0) by reflexivity.
  destruct (spi_write_transfer_block_until_ready s [] 0x5a [1; 1] 0 0xa5 []
              Hb Hw Hz) as (Hwrite & _ & Htransfer & _).
  exact (conj Hb (conj Hw (conj Hz (conj Hwrite Htransfer)))).
Defined.

(** C4, as stated, fails when the device presents more than eight bits in
    RDATA: the value read after readiness is 0x1a5 and [spi_transfer]
    returns 0xa5. *)
Lemma spi_transfer_returns_low_byte_only :
  let s := {| CPOL := 0; CPHA := 0; CHIP_SELECT := 0; CLOCK_CONF := 0;
              WDATA := 0; RDATA := 0; BUSY := 0 |} in
  exists b',
    spi_transfer 0x5a {| regs := s; answers := [1; 0; 0x1a5]; log := [] |} =
      Ret (0xa5, b') /\
    log b' = [Store R_WDATA 0x5a; Load R_BUSY 1; Load R_BUSY 0;
              Load R_RDATA 0x1a5] /\
    RDATA (regs b') = 0x1a5 /\
    0xa5 <> RDATA (regs b').
Proof.
  intros s. eexists. split; [reflexivity |].
  simpl. repeat split. discriminate.
Qed.




End SpiTransfers.

(** ** MTimer *)

Section MTimerProperties.
Import MTimer.

Lemma compare_value_sum (s : MTimerController) :
  word32 (MTIMECMPL s) ->
  compare_value s = MTIMECMPH s * 2 ^ 32 + MTIMECMPL s.
Proof. intros Hl. unfold compare_value. apply join_words. exact Hl. Qed.

Lemma high_word (n : Z) :
  0 <= n < 2 ^ 64 -> uint32 (Z.shiftr n 32) = n / 2 ^ 32.
Proof.
  intros Hn. rewrite Z.shiftr_div_pow2 by lia.
  apply uint32_small. split.
  - apply Z.div_pos; lia.
  - apply Z.div_lt_upper_bound; lia.
Qed.

Lemma low_word (n : Z) : uint32 (Z.land n 0xFFFFFFFF) = n mod 2 ^ 32.
Proof.
  change 0xFFFFFFFF with (Z.ones 32).
  rewrite Z.land_ones by lia.
  unfold uint32. apply Z.mod_mod. lia.
Qed.

(** C1. The three writes of [mtimer_set_compare], observed after each
    store: after the first the compare value is not below the old one,
    after the second it is not below the new one (so that no intermediate
    value is below the smaller of the two, and none is below the old one
    when the new value is not), and after the third it is the new value. *)
Theorem mtimer_set_compare_observations
  (b : bus reg MTimerController) (new_value : Z) :
  word32 (MTIMECMPL (regs b)) -> word32 (MTIMECMPH (regs b)) ->
  0 <= new_value < 2 ^ 64 ->
  exists b' s1 s2 s3,
    mtimer_set_compare new_value b = Ret (tt, b') /\
    log b' = log b ++ [Store R_MTIMECMPL 0xFFFFFFFF;
                       Store R_MTIMECMPH (new_value / 2 ^ 32);
                       Store R_MTIMECMPL (new_value mod 2 ^ 32)] /\
    snapshots (regs b) [Store R_MTIMECMPL 0xFFFFFFFF;
                        Store R_MTIMECMPH (new_value / 2 ^ 32);
                        Store R_MTIMECMPL (new_value mod 2 ^ 32)]
      = [s1; s2; s3] /\
    regs b' = s3 /\
    compare_value (regs b) <= compare_value s1 /\
    new_value <= compare_value s2 /\
    Z.min (compare_value (regs b)) new_value <= compare_value s1 /\
    Z.min (compare_value (regs b)) new_value <= compare_value s2 /\
    (compare_value (regs b) <= new_value ->
     compare_value (regs b) <= compare_value s2) /\
    compare_value s3 = new_value.
Proof.
  intros Hl Hh Hn.
  assert (Hhi : 0 <= new_value / 2 ^ 32 < 2 ^ 32).
  { split; [apply Z.div_pos; lia | apply Z.div_lt_upper_bound; lia]. }
  assert (Hlo : 0 <= new_value mod 2 ^ 32 < 2 ^ 32).
  { apply Z.mod_pos_bound. lia. }
  pose proof (Z.div_mod new_value (2 ^ 32) ltac:(lia)) as Hdm.
  do 4 eexists.
  split.
  { unfold mtimer_set_compare, bind, store. simpl.
    rewrite high_word by exact Hn. rewrite low_word.
    change (uint32 (-1)) with 0xFFFFFFFF.
    rewrite <- !app_assoc. simpl. reflexivity. }
  split; [reflexivity |].
  split; [simpl; reflexivity |].
  split; [reflexivity |].
  unfold word32 in Hl, Hh.
  assert (H1 : compare_value (regs b) <=
               compare_value (set R_MTIMECMPL 0xFFFFFFFF (regs b))).
  { rewrite !compare_value_sum by (unfold word32; simpl; lia). simpl. lia. }
  assert (H2 : new_value <=
               compare_value
                 (set R_MTIMECMPH (new_value / 2 ^ 32)
                    (set R_MTIMECMPL 0xFFFFFFFF (regs b)))).
  { rewrite compare_value_sum by (unfold word32; simpl; lia). simpl. lia. }
  split; [exact H1 |].
  split; [exact H2 |].
  split; [etransitivity; [apply Z.le_min_l | exact H1] |].
  split; [etransitivity; [apply Z.le_min_r | exact H2] |].
  split; [intros Hraise; etransitivity; [exact Hraise | exact H2] |].
  rewrite compare_value_sum by (unfold word32; simpl; lia). simpl. lia.
Qed.

Lemma mtimer_set_compare_observations_witness :
  let s := {| CR := 1; MTIMEL := 7; MTIMEH := 0;
              MTIMECMPL := 0x10; MTIMECMPH := 2 |} in
  let b := {| regs := s; answers := []; log := [] |} in
  word32 (MTIMECMPL s) /\ word32 (MTIMECMPH s) /\
  0 <= 0x500000003 < 2 ^ 64 /\
  exists b' s1 s2 s3,
    mtimer_set_compare 0x500000003 b = Ret (tt, b') /\
    log b' = [Store R_MTIMECMPL 0xFFFFFFFF; Store R_MTIMECMPH 5;
              Store R_MTIMECMPL 3] /\
    snapshots s (log b') = [s1; s2; s3] /\
    compare_value s <= compare_value s1 /\
    0x500000003 <= compare_value s2 /\
    compare_value s3 = 0x500000003.
Proof.
  intros s b.
  assert (Hl : word32 (MTIMECMPL (regs b))) by (unfold word32; simpl; lia).
  assert (Hh : word32 (MTIMECMPH (regs b))) by (unfold word32; simpl; lia).
  assert (Hn : 0 <= 0x500000003 < 2 ^ 64) by lia.
  destruct (mtimer_set_compare_observations b 0x500000003 Hl Hh Hn)
    as (b' & s1 & s2 & s3 & Hrun & Hlog & Hsnap & _ & H1 & H2 & _ & _ & _ & H3).
  split; [exact Hl |]. split; [exact Hh |]. split; [exact Hn |].
  exists b', s1, s2, s3.
  split; [exact Hrun |].
  split; [exact Hlog |].
  split; [rewrite Hlog; exact Hsnap |].
  split; [exact H1 |].
  split; [exact H2 | exact H3].
Defined.

(** C1, as stated, fails when the new value has a smaller high word than
    the old one: from the compare value 2^32, setting 0 shows 2^32 - 1
    after the second write. *)
Lemma mtimer_set_compare_dips_below_old :
  let s := {| CR := 1; MTIMEL := 0; MTIMEH := 0;
              MTIMECMPL := 0; MTIMECMPH := 1 |} in
  exists b' s1 s2 s3,
    mtimer_set_compare 0 {| regs := s; answers := []; log := [] |}
      = Ret (tt, b') /\
    snapshots s (log b') = [s1; s2; s3] /\
    compare_value s = 2 ^ 32 /\
    compare_value s2 = 2 ^ 32 - 1 /\
    compare_value s2 < compare_value s.
Proof.
  intros s. do 4 eexists.
  split; [reflexivity |].
  split; [reflexivity |].
  split; [reflexivity |].
  split; [reflexivity |].
  reflexivity.
Qed.

(** C2. [mtimer_get_counter] loads MTIMEL, then MTIMEH, and returns
    [(MTIMEH << 31) | MTIMEL]: with MTIMEL = 0 and MTIMEH = 1 it returns
    2^31 where the counter value [(MTIMEH << 32) | MTIMEL] is 2^32. *)
Theorem mtimer_get_counter_shifts_by_31
  (s : MTimerController) (lg : list (access reg)) (l h : Z) (rest : list Z) :
  mtimer_get_counter {| regs := s; answers := l :: h :: rest; log := lg |} =
    Ret (Z.lor (uint64 (Z.shiftl (uint32 h) 31)) (uint32 l),
         {| regs := {| CR := CR s; MTIMEL := uint32 l; MTIMEH := uint32 h;
                       MTIMECMPL := MTIMECMPL s; MTIMECMPH := MTIMECMPH s |};
            answers := rest;
            log := lg ++ [Load R_MTIMEL (uint32 l); Load R_MTIMEH (uint32 h)] |})
  /\
  exists b',
    mtimer_get_counter {| regs := s; answers := 0 :: 1 :: rest; log := lg |} =
      Ret (2 ^ 31, b') /\
    MTIMEL (regs b') = 0 /\ MTIMEH (regs b') = 1 /\
    counter_value (regs b') = 2 ^ 32.
Proof.
  split.
  - unfold mtimer_get_counter, bind, load, ret. simpl.
    rewrite <- app_assoc. reflexivity.
  - eexists. split; [reflexivity |]. repeat split.
Qed.

End MTimerProperties.

(** ** UART *)

Lemma char_code_byte (c : ascii) : 0 <= char_code c < 2 ^ 8.
Proof.
  unfold char_code. pose proof (N_ascii_bounded c) as H.
  change (2 ^ 8) with (Z.of_N 256). lia.
Qed.

Lemma char_code_nonzero (c : ascii) : c <> zero -> char_code c <> 0.
Proof.
  intros Hc E. apply Hc. unfold char_code in E.
  rewrite <- (ascii_N_embedding c).
  replace (N_of_ascii c) with 0%N by lia. reflexivity.
Qed.

Lemma char_code_zero (c : ascii) : Ascii.eqb c zero = false <-> c <> zero.
Proof.
  split.
  - intros H E. subst c. discriminate H.
  - intros H. destruct (Ascii.eqb_spec c zero) as [E | _]; [contradiction | reflexivity].
Qed.

Section LogShape.
Context {reg file : Type} `{P : Peripheral reg file}.

Lemma stores_polls (r : reg) (ws : list Z) (l : list (access reg)) :
  stores (polls r ws ++ l) = stores l.
Proof. induction ws as [| w ws IH]; simpl; [reflexivity | exact IH]. Qed.

Lemma guarded_polls (ok : access reg -> bool) (r : reg) (ws : list Z) :
  forall (prev : bool) (v d : Z) (r' : reg) (l : list (access reg)),
    ok (Load r v) = true ->
    guarded_from prev ok (polls r ws ++ Load r v :: Store r' d :: l) =
      guarded_from false ok l.
Proof.
  induction ws as [| w ws IH]; intros prev v d r' l Hok.
  - simpl. rewrite Hok. reflexivity.
  - simpl. apply IH. exact Hok.
Qed.

Lemma releases_waiting (p : Z -> bool) (ws : list Z) :
  waiting p ws -> releases p ws = O.
Proof.
  unfold releases. induction 1 as [| w ws Hw _ IH]; simpl.
  - reflexivity.
  - rewrite Hw. exact IH.
Qed.

Lemma releases_split (p : Z -> bool) (ws : list Z) (v : Z) (rest : list Z) :
  waiting p ws -> p (uint32 v) = true ->
  releases p (ws ++ v :: rest) = S (releases p rest).
Proof.
  intros Hw Hv. unfold releases.
  rewrite filter_app, length_app. fold (releases p ws).
  rewrite releases_waiting by exact Hw.
  simpl. rewrite Hv. reflexivity.
Qed.

End LogShape.

Section UartProperties.
Import Uart.

Lemma uart_write_returns
  (s : UartController) (lg : list (access reg)) (data : Z) (waits : list Z)
  (v : Z) (rest : list Z) :
  waiting (fun ready => ready =? 1) waits -> uint32 v = 1 ->
  uart_write data {| regs := s; answers := waits ++ v :: rest; log := lg |} =
    Ret (tt, {| regs := set R_WDATA (uint32 data) (set R_READY 1 s);
                answers := rest;
                log := lg ++ polls R_READY waits
                         ++ [Load R_READY 1; Store R_WDATA (uint32 data)] |}).
Proof.
  intros Hw Hv. unfold uart_write.
  change uart_ready_to_send with (poll R_READY (fun ready => ready =? 1)).
  unfold bind at 1.
  rewrite while_not_returns; try reflexivity; try assumption.
  - unfold store. simpl. rewrite Hv. unfold polls. rewrite map_app. simpl.
    rewrite Hv. rewrite <- !app_assoc. reflexivity.
  - rewrite Hv. reflexivity.
Qed.

Lemma uart_write_blocked
  (s : UartController) (lg : list (access reg)) (data : Z) (waits : list Z) :
  waiting (fun ready => ready =? 1) waits ->
  uart_write data {| regs := s; answers := waits; log := lg |} = Blocked.
Proof.
  intros Hw. unfold uart_write.
  change uart_ready_to_send with (poll R_READY (fun ready => ready =? 1)).
  unfold bind.
  rewrite while_not_blocked; try reflexivity; assumption.
Qed.

Lemma uart_write_string_returns (pre post : list ascii) :
  ~ In zero pre ->
  forall (s : UartController) (ans : list Z) (lg : list (access reg)),
    (List.length pre <= releases (fun ready => (ready =? 1)%Z) ans)%nat ->
    exists b' tr,
      uart_write_string (pre ++ zero :: post)
        {| regs := s; answers := ans; log := lg |} = Ret (tt, b') /\
      log b' = lg ++ tr /\
      stores tr = map (fun c => (R_WDATA, char_code c)) pre /\
      guarded ready_poll tr = true.
Proof.
  induction pre as [| c pre IH]; intros Hnz s ans lg Hrel.
  - eexists. exists []. simpl. split; [reflexivity |].
    simpl. rewrite app_nil_r. repeat split.
  - assert (Hc : c <> zero) by (intros E; apply Hnz; left; exact E).
    assert (Hpre : ~ In zero pre) by (intros Hin; apply Hnz; right; exact Hin).
    destruct (first_release (fun ready => ready =? 1) ans)
      as [Hw | (waits & v & rest & Heq & Hw & Hv)].
    + rewrite releases_waiting in Hrel by exact Hw. simpl in Hrel. lia.
    + subst ans. rewrite releases_split in Hrel by assumption.
      apply Z.eqb_eq in Hv.
      simpl in Hrel.
      destruct (IH Hpre (set R_WDATA (char_code c) (set R_READY 1 s)) rest
                  (lg ++ polls R_READY waits
                      ++ [Load R_READY 1; Store R_WDATA (char_code c)])
                  ltac:(lia))
        as (b' & tr & Hrun & Hlog & Hst & Hg).
      exists b'.
      exists (polls R_READY waits
                ++ Load R_READY 1 :: Store R_WDATA (char_code c) :: tr).
      split.
      { simpl. apply char_code_zero in Hc. rewrite Hc.
        unfold bind at 1. rewrite uart_write_returns by assumption.
        rewrite (uint32_small (char_code c))
          by (pose proof (char_code_byte c); lia).
        exact Hrun. }
      split.
      { rewrite Hlog. rewrite <- !app_assoc. reflexivity. }
      split.
      { rewrite stores_polls. simpl. rewrite Hst. reflexivity. }
      unfold guarded. rewrite guarded_polls by reflexivity. exact Hg.
Qed.

Lemma uart_write_string_blocked (pre post : list ascii) :
  ~ In zero pre ->
  forall (s : UartController) (ans : list Z) (lg : list (access reg)),
    (releases (fun ready => (ready =? 1)%Z) ans < List.length pre)%nat ->
    uart_write_string (pre ++ zero :: post)
      {| regs := s; answers := ans; log := lg |} = Blocked.
Proof.
  induction pre as [| c pre IH]; intros Hnz s ans lg Hrel.
  - simpl in Hrel. lia.
  - assert (Hc : c <> zero) by (intros E; apply Hnz; left; exact E).
    assert (Hpre : ~ In zero pre) by (intros Hin; apply Hnz; right; exact Hin).
    apply char_code_zero in Hc. simpl. rewrite Hc. unfold bind at 1.
    destruct (first_release (fun ready => ready =? 1) ans)
      as [Hw | (waits & v & rest & Heq & Hw & Hv)].
    + rewrite uart_write_blocked by exact Hw. reflexivity.
    + subst ans. rewrite releases_split in Hrel by assumption.
      apply Z.eqb_eq in Hv.
      rewrite uart_write_returns by assumption.
      apply IH; [exact Hpre | simpl in Hrel; lia].
Qed.

(** C5. On a buffer that holds the bytes [pre], none of them null, then
    the null byte, [uart_write_string] returns as soon as the device has
    answered READY = 1 once per byte of [pre] and is blocked before.  The
    stores it makes are exactly the bytes of [pre] to WDATA, in order (the
    null byte and what follows it are not written), and each store comes
    immediately after a load of READY that read 1.  On "AB" the accesses are
    the polls, then 'A', the polls, then 'B'. *)
Theorem uart_write_string_polled_writes
  (b : bus reg UartController) (pre post : list ascii) :
  ~ In zero pre ->
  ((List.length pre <= releases (fun ready => (ready =? 1)%Z) (answers b))%nat ->
   exists b' tr,
     uart_write_string (pre ++ zero :: post) b = Ret (tt, b') /\
     log b' = log b ++ tr /\
     stores tr = map (fun c => (R_WDATA, char_code c)) pre /\
     Forall (fun st => snd st <> 0) (stores tr) /\
     guarded ready_poll tr = true) /\
  ((releases (fun ready => (ready =? 1)%Z) (answers b) < List.length pre)%nat ->
   uart_write_string (pre ++ zero :: post) b = Blocked) /\
  (forall w1 w2 rest,
     waiting (fun ready => ready =? 1) w1 ->
     waiting (fun ready => ready =? 1) w2 ->
     uart_write_string (c_str "AB")
       {| regs := regs b; answers := w1 ++ 1 :: w2 ++ 1 :: rest; log := log b |} =
       Ret (tt, {| regs := {| WDATA := 66; RDATA := RDATA (regs b); READY := 1;
                              RXSTATUS := RXSTATUS (regs b) |};
                   answers := rest;
                   log := log b
                            ++ polls R_READY w1
                            ++ [Load R_READY 1; Store R_WDATA 65]
                            ++ polls R_READY w2
                            ++ [Load R_READY 1; Store R_WDATA 66] |})).
Proof.
  intros Hnz. destruct b as [s ans lg]. simpl.
  split.
  { intros Hrel.
    destruct (uart_write_string_returns pre post Hnz s ans lg Hrel)
      as (b' & tr & Hrun & Hlog & Hst & Hg).
    exists b', tr. repeat split; try assumption.
    rewrite Hst. apply Forall_forall. intros st Hin.
    apply in_map_iff in Hin. destruct Hin as (c & <- & Hc). simpl.
    apply char_code_nonzero. intros ->. contradiction. }
  split; [apply uart_write_string_blocked; exact Hnz |].
  intros w1 w2 rest Hw1 Hw2.
  unfold c_str. simpl. unfold bind.
  rewrite uart_write_returns by (try assumption; reflexivity).
  rewrite uart_write_returns by (try assumption; reflexivity).
  simpl. rewrite <- !app_assoc. reflexivity.
Qed.

Lemma uart_write_string_polled_writes_witness :
  let b := {| regs := {| WDATA := 0; RDATA := 0; READY := 0; RXSTATUS := 0 |};
              answers := [0; 1; 0; 0; 1; 1]; log := [] |} in
  ~ In zero (list_ascii_of_string "AB") /\
  (2 <= releases (fun ready => (ready =? 1)%Z) (answers b))%nat /\
  exists b' tr,
    uart_write_string (c_str "AB") b = Ret (tt, b') /\
    log b' = tr /\
    stores tr = [(R_WDATA, 65); (R_WDATA, 66)] /\
    Forall (fun st => snd st <> 0) (stores tr) /\
    guarded ready_poll tr = true.
Proof.
  intros b.
  assert (Hnz : ~ In zero (list_ascii_of_string "AB")).
  { simpl. intros [H | [H | H]]; [discriminate H | discriminate H | exact H]. }
  assert (Hrel : (List.length (list_ascii_of_string "AB")
                  <= releases (fun ready => (ready =? 1)%Z) (answers b))%nat).
  { vm_compute. repeat constructor. }
  destruct (uart_write_string_polled_writes b (list_ascii_of_string "AB") []
              Hnz) as (Hret & _ & _).
  exact (conj Hnz (conj Hrel (Hret Hrel))).
Defined.

End UartProperties.

(** ** The two UART variants *)

Section UartRefinement.

Lemma same_outcome_bind {A B : Type}
  (m : io Uart.reg Uart.UartController A)
  (m' : io UartDev.reg UartDev.UartController A)
  (k : A -> io Uart.reg Uart.UartController B)
  (k' : A -> io UartDev.reg UartDev.UartController B)
  (x : bus Uart.reg Uart.UartController)
  (y : bus UartDev.reg UartDev.UartController) :
  same_outcome (m x) (m' y) ->
  (forall a x' y', similar x' y' -> same_outcome (k a x') (k' a y')) ->
  same_outcome (bind m k x) (bind m' k' y).
Proof.
  intros Hm Hk. unfold bind.
  destruct (m x) as [[a x'] | |], (m' y) as [[a' y'] | |];
    simpl in Hm; try contradiction; try exact I.
  destruct Hm as [-> Hsim]. apply Hk. exact Hsim.
Qed.

Lemma ready_similar
  (x : bus Uart.reg Uart.UartController)
  (y : bus UartDev.reg UartDev.UartController) :
  similar x y ->
  same_outcome (Uart.uart_ready_to_send x) (UartDev.uart_ready y).
Proof.
  intros (Hans & Hlog & Hw & Hr & Hy).
  unfold Uart.uart_ready_to_send, UartDev.uart_ready, bind, load, ret. simpl.
  rewrite <- Hans.
  destruct (answers x) as [| v rest]; simpl; [exact I |].
  split; [reflexivity |].
  unfold similar. simpl.
  rewrite !map_app, Hlog. simpl.
  repeat split; assumption.
Qed.

Lemma spin_similar (n : nat) :
  forall (x : bus Uart.reg Uart.UartController)
         (y : bus UartDev.reg UartDev.UartController),
    similar x y ->
    same_outcome (spin n Uart.uart_ready_to_send x)
                 (spin n UartDev.uart_ready y).
Proof.
  induction n as [| n IH]; intros x y Hsim; simpl; [exact I |].
  pose proof (ready_similar x y Hsim) as Hready.
  destruct (Uart.uart_ready_to_send x) as [[r x'] | |],
           (UartDev.uart_ready y) as [[r' y'] | |];
    simpl in Hready; try contradiction; try exact I.
  destruct Hready as [<- Hsim'].
  destruct r; [split; [reflexivity | exact Hsim'] | apply IH; exact Hsim'].
Qed.

Lemma uart_write_similar (data : Z)
  (x : bus Uart.reg Uart.UartController)
  (y : bus UartDev.reg UartDev.UartController) :
  similar x y ->
  same_outcome (Uart.uart_write data x) (UartDev.uart_write data y).
Proof.
  intros Hsim. unfold Uart.uart_write, UartDev.uart_write.
  apply same_outcome_bind.
  - unfold while_not.
    destruct Hsim as (Hans & Hrest). rewrite <- Hans.
    apply spin_similar. split; assumption.
  - intros [] x' y' (Hans & Hlog & Hw & Hr & Hy).
    unfold store. simpl. split; [reflexivity |].
    unfold similar. simpl.
    rewrite !map_app, Hlog. simpl.
    repeat split; assumption.
Qed.

(** C10. The two variants of [uart_write] and [uart_write_string] behave
    alike: started on the same answers of the READY register, after the
    same accesses, they have the same outcome and leave the same accesses
    on the wire, the same remaining answers and the same values in the
    registers they share. *)
Theorem uart_variants_equivalent
  (x : bus Uart.reg Uart.UartController)
  (y : bus UartDev.reg UartDev.UartController)
  (data : Z) (str : list ascii) :
  similar x y ->
  same_outcome (Uart.uart_write data x) (UartDev.uart_write data y) /\
  same_outcome (Uart.uart_write_string str x) (UartDev.uart_write_string str y).
Proof.
  intros Hsim. split; [apply uart_write_similar; exact Hsim |].
  revert x y Hsim.
  induction str as [| c str IH]; intros x y Hsim; simpl; [exact I |].
  destruct (Ascii.eqb c zero).
  - simpl. split; [reflexivity | exact Hsim].
  - apply same_outcome_bind.
    + apply uart_write_similar. exact Hsim.
    + intros _ x' y' Hsim'. apply IH. exact Hsim'.
Qed.

Lemma uart_variants_equivalent_witness :
  let x := {| regs := {| Uart.WDATA := 0; Uart.RDATA := 0; Uart.READY := 0;
                         Uart.RXSTATUS := 0 |};
              answers := [0; 1; 1]; log := [] |} in
  let y := {| regs := {| UartDev.WDATA := 0; UartDev.RDATA := 0;
                         UartDev.READY := 0 |};
              answers := [0; 1; 1]; log := [] |} in
  similar x y /\
  same_outcome (Uart.uart_write 65 x) (UartDev.uart_write 65 y) /\
  same_outcome (Uart.uart_write_string (c_str "AB") x)
               (UartDev.uart_write_string (c_str "AB") y).
Proof.
  intros x y.
  assert (Hsim : similar x y) by (repeat split).
  exact (conj Hsim (uart_variants_equivalent x y 65 (c_str "AB") Hsim)).
Defined.

End UartRefinement.

(** ** Runs on concrete devices *)

Section Runs.

(** The masks 0x00000000 and 0xFFFFFFFF of [gpio_set_group]. *)
Example gpio_set_group_no_pin :
  Gpio.output_latch 0x5a [Store Gpio.R_SET 0x00000000] = 0x5a.
Proof. reflexivity. Qed.

Example gpio_set_group_all_pins :
  Gpio.output_latch 0x5a [Store Gpio.R_SET 0xFFFFFFFF] = 0xFFFFFFFF.
Proof. reflexivity. Qed.

(** [gpio_write] on a pin that does not exist shifts by the width of the
    operand. *)
Example gpio_write_pin_32 (b : bus Gpio.reg Gpio.GpioController) :
  Gpio.gpio_write 32 Gpio.HIGH b = Undefined.
Proof. reflexivity. Qed.

(** A controller that is busy for three polls. *)
Example spi_transfer_busy_then_ready :
  let s := {| Spi.CPOL := 0; Spi.CPHA := 0; Spi.CHIP_SELECT := 0;
              Spi.CLOCK_CONF := 0; Spi.WDATA := 0; Spi.RDATA := 0;
              Spi.BUSY := 0 |} in
  exists b',
    Spi.spi_transfer 0x9f
      {| regs := s; answers := [1; 1; 1; 0; 0xc2]; log := [] |} =
      Ret (0xc2, b') /\
    log b' = [Store Spi.R_WDATA 0x9f; Load Spi.R_BUSY 1; Load Spi.R_BUSY 1;
              Load Spi.R_BUSY 1; Load Spi.R_BUSY 0; Load Spi.R_RDATA 0xc2] /\
    Spi.BUSY (regs b') = 0.
Proof. intros s. eexists. repeat split. Qed.

(** A controller that stays busy. *)
Example spi_write_never_ready :
  let s := {| Spi.CPOL := 0; Spi.CPHA := 0; Spi.CHIP_SELECT := 0;
              Spi.CLOCK_CONF := 0; Spi.WDATA := 0; Spi.RDATA := 0;
              Spi.BUSY := 0 |} in
  Spi.spi_write 0x9f {| regs := s; answers := [1; 1; 1; 1]; log := [] |}
    = Blocked.
Proof. reflexivity. Qed.

(** "AB" on a UART that is ready at once. *)
Example uart_write_string_AB :
  let s := {| Uart.WDATA := 0; Uart.RDATA := 0; Uart.READY := 0;
              Uart.RXSTATUS := 0 |} in
  exists b',
    Uart.uart_write_string (c_str "AB")
      {| regs := s; answers := [1; 1]; log := [] |} = Ret (tt, b') /\
    log b' = [Load Uart.R_READY 1; Store Uart.R_WDATA 65;
              Load Uart.R_READY 1; Store Uart.R_WDATA 66].
Proof. intros s. eexists. repeat split. Qed.

(** A buffer without a null byte is read past its end. *)
Example uart_write_string_unterminated :
  let s := {| Uart.WDATA := 0; Uart.RDATA := 0; Uart.READY := 0;
              Uart.RXSTATUS := 0 |} in
  Uart.uart_write_string (list_ascii_of_string "AB")
    {| regs := s; answers := [1; 1; 1]; log := [] |} = Undefined.
Proof. reflexivity. Qed.

(** Raising the compare value: every observation is above the old value. *)
Example mtimer_set_compare_raise :
  let s := {| MTimer.CR := 1; MTimer.MTIMEL := 0; MTimer.MTIMEH := 0;
              MTimer.MTIMECMPL := 0x10; MTimer.MTIMECMPH := 0 |} in
  exists b',
    MTimer.mtimer_set_compare 0x200000001
      {| regs := s; answers := []; log := [] |} = Ret (tt, b') /\
    map MTimer.compare_value (snapshots (P := MTimer.periph) s (log b')) =
      [0xFFFFFFFF; 0x2FFFFFFFF; 0x200000001].
Proof. intros s. eexists. repeat split. Qed.

End Runs.

(** * Further properties of the library *)

(** ** Words and bits *)

Lemma word_high_bits (z : Z) :
  0 <= z < 2 ^ 32 -> forall i, 32 <= i -> Z.testbit z i = false.
Proof.
  intros Hz i Hi. rewrite <- (Z.mod_small z (2 ^ 32)) by exact Hz.
  apply Z.mod_pow2_bits_high. lia.
Qed.

Lemma uint32_of_high_bits (z : Z) :
  (forall i, 32 <= i -> Z.testbit z i = false) -> uint32 z = z.
Proof.
  intros Hhigh. unfold uint32. apply Z.bits_inj'. intros i Hi.
  rewrite Z.testbit_mod_pow2 by lia.
  destruct (Z.ltb_spec i 32) as [Hlt | Hge].
  - reflexivity.
  - rewrite Hhigh by exact Hge. reflexivity.
Qed.

Lemma uint32_word (z : Z) : 0 <= uint32 z < 2 ^ 32.
Proof. unfold uint32. apply Z.mod_pos_bound. lia. Qed.

Lemma lor_word (a m : Z) :
  0 <= a < 2 ^ 32 -> 0 <= m < 2 ^ 32 -> uint32 (Z.lor a m) = Z.lor a m.
Proof.
  intros Ha Hm. apply uint32_of_high_bits. intros i Hi.
  rewrite Z.lor_spec, (word_high_bits a Ha i Hi), (word_high_bits m Hm i Hi).
  reflexivity.
Qed.

Lemma lxor_word (a m : Z) :
  0 <= a < 2 ^ 32 -> 0 <= m < 2 ^ 32 -> uint32 (Z.lxor a m) = Z.lxor a m.
Proof.
  intros Ha Hm. apply uint32_of_high_bits. intros i Hi.
  rewrite Z.lxor_spec, (word_high_bits a Ha i Hi), (word_high_bits m Hm i Hi).
  reflexivity.
Qed.

Lemma land_word (a x : Z) :
  0 <= a < 2 ^ 32 -> uint32 (Z.land a x) = Z.land a x.
Proof.
  intros Ha. apply uint32_of_high_bits. intros i Hi.
  rewrite Z.land_spec, (word_high_bits a Ha i Hi). reflexivity.
Qed.

Lemma word_of_uint32 (z : Z) : uint32 z = z -> 0 <= z < 2 ^ 32.
Proof. intros H. rewrite <- H. apply uint32_word. Qed.

Lemma one_bit (p i : Z) : 0 <= p -> Z.testbit (Z.shiftl 1 p) i = (p =? i).
Proof. intros Hp. rewrite Z.shiftl_1_l. apply Z.pow2_bits_eqb. exact Hp. Qed.

Lemma one_bit_word (p : Z) : 0 <= p < 32 -> 0 <= Z.shiftl 1 p < 2 ^ 32.
Proof. intros Hp. apply word_of_uint32. apply shl1_word. exact Hp. Qed.

Section Sequencing.
Context {reg file : Type} `{P : Peripheral reg file}.

Lemma bind_assoc {A B C : Type} (m : io reg file A) (k : A -> io reg file B)
  (h : B -> io reg file C) (b : bus reg file) :
  bind (bind m k) h b = bind m (fun a => bind (k a) h) b.
Proof. unfold bind. destruct (m b) as [[a b'] | |]; reflexivity. Qed.

Lemma one_shl_defined (bit : Z) (b : bus reg file) :
  0 <= bit < 32 -> one_shl bit b = Ret (Z.shiftl 1 bit, b).
Proof.
  intros Hp. unfold one_shl.
  replace ((0 <=? bit) && (bit <? 32))%bool with true.
  - unfold ret. rewrite shl1_word by exact Hp. reflexivity.
  - symmetry. apply andb_true_iff. split; [apply Z.leb_le | apply Z.ltb_lt]; lia.
Qed.

End Sequencing.

(** ** GPIO: single pins, groups and directions *)

Section GpioFurther.
Import Gpio.

(** X1. On the pins 0..31 the single-pin operations are the group
    operations on the one-bit mask, and [gpio_write] is [gpio_set] or
    [gpio_clear] according to the value. *)
Theorem gpio_pin_operations_are_one_bit_groups
  (b : bus reg GpioController) (pin_id : Z) :
  0 <= pin_id < 32 ->
  gpio_set pin_id b = gpio_set_group (Z.shiftl 1 pin_id) b /\
  gpio_clear pin_id b = gpio_clear_group (Z.shiftl 1 pin_id) b /\
  gpio_write pin_id HIGH b = gpio_set_group (Z.shiftl 1 pin_id) b /\
  gpio_write pin_id LOW b = gpio_clear_group (Z.shiftl 1 pin_id) b.
Proof.
  intros Hp.
  assert (Hset : gpio_set pin_id b = gpio_set_group (Z.shiftl 1 pin_id) b).
  { unfold gpio_set, gpio_set_group, bind.
    rewrite (shl1_defined pin_id b Hp). reflexivity. }
  assert (Hclr : gpio_clear pin_id b = gpio_clear_group (Z.shiftl 1 pin_id) b).
  { unfold gpio_clear, gpio_clear_group, bind.
    rewrite (shl1_defined pin_id b Hp). reflexivity. }
  split; [exact Hset |]. split; [exact Hclr |].
  split; [exact Hset | exact Hclr].
Qed.

Lemma gpio_pin_operations_are_one_bit_groups_witness :
  let b := {| regs := {| IN := 0; OE := 0xff; OUT := 0; CLR := 0; SET := 0 |};
              answers := []; log := [] |} in
  0 <= 5 < 32 /\
  gpio_set 5 b = gpio_set_group 32 b /\
  gpio_write 5 LOW b = gpio_clear_group 32 b.
Proof.
  intros b.
  assert (Hp : 0 <= 5 < 32) by lia.
  destruct (gpio_pin_operations_are_one_bit_groups b 5 Hp)
    as (Hset & _ & _ & Hlow).
  exact (conj Hp (conj Hset Hlow)).
Defined.

(** X2. [gpio_set_group] followed by [gpio_clear_group] of the same
    mask is two stores, of the mask to SET and then to CLR, and the other
    order is the same two stores exchanged; neither touches IN, OE or OUT.
    In the output latch of the device (the levels of the pins that are
    enabled as outputs) the first order leaves the flagged bits at 0, the
    second at 1, and both leave every other bit as it was.
    [gpio_write_group] is one store to OUT, after which the output latch
    is the value stored, whatever was stored before. *)
Theorem gpio_group_last_store_wins
  (b : bus reg GpioController) (bit_mask value_mask : Z) :
  0 <= bit_mask < 2 ^ 32 -> 0 <= value_mask < 2 ^ 32 ->
  exists b1 b2 b3,
    (gpio_set_group bit_mask ;; gpio_clear_group bit_mask) b = Ret (tt, b1) /\
    (gpio_clear_group bit_mask ;; gpio_set_group bit_mask) b = Ret (tt, b2) /\
    gpio_write_group value_mask b = Ret (tt, b3) /\
    log b1 = log b ++ [Store R_SET bit_mask; Store R_CLR bit_mask] /\
    log b2 = log b ++ [Store R_CLR bit_mask; Store R_SET bit_mask] /\
    log b3 = log b ++ [Store R_OUT value_mask] /\
    regs b1 = {| IN := IN (regs b); OE := OE (regs b); OUT := OUT (regs b);
                 CLR := bit_mask; SET := bit_mask |} /\
    regs b2 = regs b1 /\
    regs b3 = {| IN := IN (regs b); OE := OE (regs b); OUT := value_mask;
                 CLR := CLR (regs b); SET := SET (regs b) |} /\
    (forall out i, 0 <= i ->
       Z.testbit (output_latch out (log b1)) i =
         (if Z.testbit bit_mask i then false
          else Z.testbit (output_latch out (log b)) i) /\
       Z.testbit (output_latch out (log b2)) i =
         (if Z.testbit bit_mask i then true
          else Z.testbit (output_latch out (log b)) i)) /\
    (forall out, output_latch out (log b3) = value_mask).
Proof.
  intros Hm Hv. do 3 eexists.
  split; [reflexivity |]. split; [reflexivity |]. split; [reflexivity |].
  simpl. rewrite !uint32_small by assumption.
  split; [rewrite <- app_assoc; reflexivity |].
  split; [rewrite <- app_assoc; reflexivity |].
  split; [reflexivity |].
  split; [reflexivity |]. split; [reflexivity |]. split; [reflexivity |].
  split.
  - intros out i Hi.
    rewrite <- !app_assoc. rewrite !output_latch_app. simpl.
    rewrite Z.land_spec, !Z.lor_spec, Z.land_spec, Z.lnot_spec by exact Hi.
    destruct (Z.testbit bit_mask i);
      destruct (Z.testbit (output_latch out (log b)) i); split; reflexivity.
  - intros out. rewrite output_latch_app. reflexivity.
Qed.

Lemma gpio_group_last_store_wins_witness :
  let b := {| regs := {| IN := 0; OE := 0xff; OUT := 0; CLR := 0; SET := 0 |};
              answers := []; log := [] |} in
  0 <= 0x12 < 2 ^ 32 /\ 0 <= 0x81 < 2 ^ 32 /\
  exists b1 b2 b3,
    (gpio_set_group 0x12 ;; gpio_clear_group 0x12) b = Ret (tt, b1) /\
    (gpio_clear_group 0x12 ;; gpio_set_group 0x12) b = Ret (tt, b2) /\
    gpio_write_group 0x81 b = Ret (tt, b3) /\
    output_latch 0x13 (log b3) = 0x81.
Proof.
  intros b.
  assert (Hm : 0 <= 0x12 < 2 ^ 32) by lia.
  assert (Hv : 0 <= 0x81 < 2 ^ 32) by lia.
  destruct (gpio_group_last_store_wins b 0x12 0x81 Hm Hv)
    as (b1 & b2 & b3 & H1 & H2 & H3 & _ & _ & _ & _ & _ & _ & _ & Hall).
  split; [exact Hm |]. split; [exact Hv |].
  exists b1, b2, b3.
  exact (conj H1 (conj H2 (conj H3 (Hall 0x13)))).
Defined.

End GpioFurther.

(** ** GPIO: directions, input tests and toggles *)

Section GpioBits.
Import Gpio.

Lemma gpio_set_output_run
  (s : GpioController) (ans : list Z) (lg : list (access reg)) (pin_id : Z) :
  0 <= OE s < 2 ^ 32 -> 0 <= pin_id < 32 ->
  gpio_set_output pin_id {| regs := s; answers := ans; log := lg |} =
    Ret (tt, {| regs := set R_OE (Z.lor (OE s) (Z.shiftl 1 pin_id)) s;
                answers := ans;
                log := lg ++ [Load R_OE (OE s);
                              Store R_OE (Z.lor (OE s) (Z.shiftl 1 pin_id))] |}).
Proof.
  intros Hoe Hp. unfold gpio_set_output, SET_BIT.
  unfold bind at 1. rewrite one_shl_defined by exact Hp.
  unfold bind, load, store. simpl.
  rewrite lor_word by (try assumption; apply one_bit_word; exact Hp).
  rewrite <- app_assoc. reflexivity.
Qed.

Lemma gpio_set_input_run
  (s : GpioController) (ans : list Z) (lg : list (access reg)) (pin_id : Z) :
  0 <= OE s < 2 ^ 32 -> 0 <= pin_id < 32 ->
  gpio_set_input pin_id {| regs := s; answers := ans; log := lg |} =
    Ret (tt, {| regs := set R_OE (Z.land (OE s) (Z.lnot (Z.shiftl 1 pin_id))) s;
                answers := ans;
                log := lg ++ [Load R_OE (OE s);
                              Store R_OE (Z.land (OE s)
                                            (Z.lnot (Z.shiftl 1 pin_id)))] |}).
Proof.
  intros Hoe Hp. unfold gpio_set_input, CLR_BIT.
  unfold bind at 1. rewrite one_shl_defined by exact Hp.
  unfold bind, load, store. simpl.
  rewrite land_word by assumption.
  rewrite <- app_assoc. reflexivity.
Qed.

(** X3. The direction of a pin is the one of the last call: after
    [gpio_set_output] then [gpio_set_input] on a pin its OE bit is 0,
    after the other order it is 1.  Either sequence leaves the OE bit of
    every other pin and every other register as they were, and takes no
    answer of the device. *)
Theorem gpio_direction_last_call_wins
  (b : bus reg GpioController) (pin_id : Z) :
  0 <= OE (regs b) < 2 ^ 32 -> 0 <= pin_id < 32 ->
  exists b1 b2,
    (gpio_set_output pin_id ;; gpio_set_input pin_id) b = Ret (tt, b1) /\
    (gpio_set_input pin_id ;; gpio_set_output pin_id) b = Ret (tt, b2) /\
    (forall i, 0 <= i ->
       Z.testbit (OE (regs b1)) i =
         (negb (pin_id =? i) && Z.testbit (OE (regs b)) i)%bool /\
       Z.testbit (OE (regs b2)) i =
         ((pin_id =? i) || Z.testbit (OE (regs b)) i)%bool) /\
    (forall r, r <> R_OE ->
       get r (regs b1) = get r (regs b) /\ get r (regs b2) = get r (regs b)) /\
    answers b1 = answers b /\ answers b2 = answers b.
Proof.
  intros Hoe Hp. destruct b as [s ans lg]. simpl in Hoe.
  assert (Hbit : 0 <= Z.shiftl 1 pin_id < 2 ^ 32) by (apply one_bit_word; exact Hp).
  do 2 eexists.
  split.
  { unfold bind. rewrite gpio_set_output_run by assumption.
    rewrite gpio_set_input_run; [reflexivity | | exact Hp].
    simpl. apply word_of_uint32. apply lor_word; assumption. }
  split.
  { unfold bind. rewrite gpio_set_input_run by assumption.
    rewrite gpio_set_output_run; [reflexivity | | exact Hp].
    simpl. apply word_of_uint32. apply land_word. exact Hoe. }
  simpl. split.
  - intros i Hi.
    rewrite Z.land_spec, !Z.lor_spec, Z.land_spec, Z.lnot_spec by exact Hi.
    rewrite one_bit by lia.
    destruct (pin_id =? i); destruct (Z.testbit (OE s) i); split; reflexivity.
  - split; [| split; reflexivity].
    intros r Hr. destruct r; try contradiction; split; reflexivity.
Qed.

Lemma gpio_direction_last_call_wins_witness :
  let b := {| regs := {| IN := 0; OE := 0x0f; OUT := 0; CLR := 0; SET := 0 |};
              answers := [0x55]; log := [] |} in
  0 <= OE (regs b) < 2 ^ 32 /\ 0 <= 2 < 32 /\
  exists b1 b2,
    (gpio_set_output 2 ;; gpio_set_input 2) b = Ret (tt, b1) /\
    (gpio_set_input 2 ;; gpio_set_output 2) b = Ret (tt, b2) /\
    answers b1 = [0x55] /\ answers b2 = [0x55].
Proof.
  intros b.
  assert (Hoe : 0 <= OE (regs b) < 2 ^ 32) by (simpl; lia).
  assert (Hp : 0 <= 2 < 32) by lia.
  destruct (gpio_direction_last_call_wins b 2 Hoe Hp)
    as (b1 & b2 & H1 & H2 & _ & _ & Ha1 & Ha2).
  split; [exact Hoe |]. split; [exact Hp |].
  exists b1, b2.
  exact (conj H1 (conj H2 (conj Ha1 Ha2))).
Defined.

Lemma bit_of_shift (v p : Z) :
  0 <= p -> Z.land (Z.shiftr v p) 1 = Z.b2z (Z.testbit v p).
Proof.
  intros Hp. change 1 with (Z.ones 1) at 1.
  rewrite Z.land_ones by lia.
  rewrite Z.shiftr_div_pow2 by exact Hp.
  rewrite Z.testbit_spec' by exact Hp. reflexivity.
Qed.

Lemma gpio_read_run
  (s : GpioController) (v : Z) (rest : list Z) (lg : list (access reg))
  (pin_id : Z) :
  0 <= pin_id < 32 ->
  gpio_read pin_id {| regs := s; answers := v :: rest; log := lg |} =
    Ret (Z.b2z (Z.testbit (uint32 v) pin_id),
         {| regs := set R_IN (uint32 v) s; answers := rest;
            log := lg ++ [Load R_IN (uint32 v)] |}).
Proof.
  intros Hp. unfold gpio_read, READ_BIT, bind, load. simpl.
  replace ((0 <=? pin_id) && (pin_id <? 32))%bool with true.
  - unfold ret. rewrite bit_of_shift by lia. reflexivity.
  - symmetry. apply andb_true_iff. split; [apply Z.leb_le | apply Z.ltb_lt]; lia.
Qed.

(** X4. The input tests look at IN and at nothing else.  On the pins
    0..31, with [v] the next value the device presents on IN, [gpio_read]
    returns bit [pin_id] of [v] as 0 or 1, [gpio_is_set] tells whether that
    bit is 1, and [gpio_is_clear] tells the opposite; each takes that one
    answer and makes one load.  What [gpio_write] requested just before
    does not enter the result, and without an answer the test is blocked. *)
Theorem gpio_input_tests_read_in
  (s : GpioController) (v : Z) (rest : list Z) (lg : list (access reg))
  (pin_id value : Z) :
  0 <= pin_id < 32 ->
  let b := {| regs := s; answers := v :: rest; log := lg |} in
  let b' := {| regs := set R_IN (uint32 v) s; answers := rest;
               log := lg ++ [Load R_IN (uint32 v)] |} in
  let bit := Z.testbit (uint32 v) pin_id in
  gpio_read pin_id b = Ret (Z.b2z bit, b') /\
  gpio_is_set pin_id b = Ret (bit, b') /\
  gpio_is_clear pin_id b = Ret (negb bit, b') /\
  (exists b'', (gpio_write pin_id value ;; gpio_is_set pin_id) b
                 = Ret (bit, b'')) /\
  gpio_is_set pin_id {| regs := s; answers := []; log := lg |} = Blocked.
Proof.
  intros Hp b b' bit.
  assert (Hread : forall s0 lg0,
            READ_BIT R_IN pin_id {| regs := s0; answers := v :: rest; log := lg0 |}
            = Ret (Z.b2z bit, {| regs := set R_IN (uint32 v) s0; answers := rest;
                                 log := lg0 ++ [Load R_IN (uint32 v)] |})).
  { intros s0 lg0. apply (gpio_read_run s0 v rest lg0 pin_id Hp). }
  assert (Hset : forall s0 lg0,
            gpio_is_set pin_id {| regs := s0; answers := v :: rest; log := lg0 |}
            = Ret (bit, {| regs := set R_IN (uint32 v) s0; answers := rest;
                           log := lg0 ++ [Load R_IN (uint32 v)] |})).
  { intros s0 lg0. unfold gpio_is_set, bind. rewrite Hread.
    unfold ret. destruct bit; reflexivity. }
  split; [apply Hread |].
  split; [apply Hset |].
  split.
  { unfold gpio_is_clear, bind, b. rewrite Hread.
    unfold ret. destruct bit; reflexivity. }
  split; [| reflexivity].
  unfold b, gpio_write.
  destruct (value =? LOW).
  - unfold bind. rewrite shl1_defined by exact Hp.
    unfold store. simpl. eexists. apply Hset.
  - destruct (value =? HIGH).
    + unfold bind. rewrite shl1_defined by exact Hp.
      unfold store. simpl. eexists. apply Hset.
    + unfold bind, ret. eexists. apply Hset.
Qed.

Lemma gpio_input_tests_read_in_witness :
  let s := {| IN := 0; OE := 0xff; OUT := 0; CLR := 0; SET := 0 |} in
  let b := {| regs := s; answers := [0x10]; log := [] |} in
  0 <= 4 < 32 /\
  gpio_read 4 b = Ret (1, {| regs := set R_IN 0x10 s; answers := [];
                             log := [Load R_IN 0x10] |}) /\
  (exists b'', (gpio_write 4 LOW ;; gpio_is_set 4) b = Ret (true, b'')).
Proof.
  intros s b.
  assert (Hp : 0 <= 4 < 32) by lia.
  destruct (gpio_input_tests_read_in s 0x10 [] [] 4 LOW Hp)
    as (Hread & _ & _ & Hafter & _).
  exact (conj Hp (conj Hread Hafter)).
Defined.

End GpioBits.

Section GpioToggle.
Import Gpio.

Lemma gpio_toggle_group_run
  (s : GpioController) (ans : list Z) (lg : list (access reg)) (bit_mask : Z) :
  0 <= OUT s < 2 ^ 32 -> 0 <= bit_mask < 2 ^ 32 ->
  gpio_toggle_group bit_mask {| regs := s; answers := ans; log := lg |} =
    Ret (tt, {| regs := set R_OUT (Z.lxor (OUT s) bit_mask) s;
                answers := ans;
                log := lg ++ [Load R_OUT (OUT s);
                              Store R_OUT (Z.lxor (OUT s) bit_mask)] |}).
Proof.
  intros Hout Hm. unfold gpio_toggle_group, INV_FLAG, bind, load, store. simpl.
  rewrite lxor_word by assumption.
  rewrite <- app_assoc. reflexivity.
Qed.

Lemma gpio_toggle_run
  (s : GpioController) (ans : list Z) (lg : list (access reg)) (pin_id : Z) :
  0 <= OUT s < 2 ^ 32 -> 0 <= pin_id < 32 ->
  gpio_toggle pin_id {| regs := s; answers := ans; log := lg |} =
    gpio_toggle_group (Z.shiftl 1 pin_id)
      {| regs := s; answers := ans; log := lg |}.
Proof.
  intros Hout Hp. unfold gpio_toggle, INV_BIT.
  unfold bind at 1. rewrite one_shl_defined by exact Hp. reflexivity.
Qed.

Lemma lxor_twice (a m : Z) : Z.lxor (Z.lxor a m) m = a.
Proof. rewrite Z.lxor_assoc, Z.lxor_nilpotent. apply Z.lxor_0_r. Qed.

(** X5. A toggle is a load of OUT and a store of the value read with the
    flagged bits inverted: [gpio_toggle] inverts bit [pin_id] of OUT and no
    other, and [gpio_toggle] or [gpio_toggle_group] made twice with the
    same argument puts every register back (two loads and two stores of
    OUT went over the bus). *)
Theorem gpio_toggle_twice_restores
  (b : bus reg GpioController) (pin_id bit_mask : Z) :
  0 <= OUT (regs b) < 2 ^ 32 -> 0 <= pin_id < 32 -> 0 <= bit_mask < 2 ^ 32 ->
  (exists b1,
     gpio_toggle pin_id b = Ret (tt, b1) /\
     forall i, 0 <= i ->
       Z.testbit (OUT (regs b1)) i =
         xorb (Z.testbit (OUT (regs b)) i) (pin_id =? i)) /\
  (gpio_toggle pin_id ;; gpio_toggle pin_id) b =
    Ret (tt, {| regs := regs b; answers := answers b;
                log := log b
                  ++ [Load R_OUT (OUT (regs b));
                      Store R_OUT (Z.lxor (OUT (regs b)) (Z.shiftl 1 pin_id));
                      Load R_OUT (Z.lxor (OUT (regs b)) (Z.shiftl 1 pin_id));
                      Store R_OUT (OUT (regs b))] |}) /\
  (gpio_toggle_group bit_mask ;; gpio_toggle_group bit_mask) b =
    Ret (tt, {| regs := regs b; answers := answers b;
                log := log b
                  ++ [Load R_OUT (OUT (regs b));
                      Store R_OUT (Z.lxor (OUT (regs b)) bit_mask);
                      Load R_OUT (Z.lxor (OUT (regs b)) bit_mask);
                      Store R_OUT (OUT (regs b))] |}).
Proof.
  intros Hout Hp Hm. destruct b as [s ans lg]. simpl in Hout. simpl.
  assert (Hbit : 0 <= Z.shiftl 1 pin_id < 2 ^ 32) by (apply one_bit_word; exact Hp).
  assert (Htwice : forall m, 0 <= m < 2 ^ 32 ->
            (gpio_toggle_group m ;; gpio_toggle_group m)
              {| regs := s; answers := ans; log := lg |} =
            Ret (tt, {| regs := s; answers := ans;
                        log := lg ++ [Load R_OUT (OUT s);
                                      Store R_OUT (Z.lxor (OUT s) m);
                                      Load R_OUT (Z.lxor (OUT s) m);
                                      Store R_OUT (OUT s)] |})).
  { intros m Hmw. unfold bind.
    rewrite gpio_toggle_group_run by assumption.
    rewrite gpio_toggle_group_run;
      [| simpl; apply word_of_uint32; apply lxor_word; assumption | exact Hmw].
    simpl. rewrite lxor_twice. rewrite <- app_assoc.
    destruct s; reflexivity. }
  split.
  { eexists. split.
    - rewrite gpio_toggle_run by assumption.
      apply gpio_toggle_group_run; assumption.
    - intros i Hi. simpl. rewrite Z.lxor_spec, one_bit by lia. reflexivity. }
  split.
  { unfold bind. rewrite gpio_toggle_run by assumption.
    specialize (Htwice (Z.shiftl 1 pin_id) Hbit). unfold bind in Htwice.
    destruct (gpio_toggle_group (Z.shiftl 1 pin_id)
                {| regs := s; answers := ans; log := lg |})
      as [[[] [s1 ans1 lg1]] | |] eqn:Hfirst; try discriminate Htwice.
    rewrite gpio_toggle_group_run in Hfirst by assumption.
    injection Hfirst as <- <- <-.
    rewrite gpio_toggle_run;
      [exact Htwice
      | simpl; apply word_of_uint32; apply lxor_word; assumption
      | exact Hp]. }
  apply Htwice. exact Hm.
Qed.

Lemma gpio_toggle_twice_restores_witness :
  let b := {| regs := {| IN := 0; OE := 0xff; OUT := 0x0a; CLR := 0; SET := 0 |};
              answers := []; log := [] |} in
  0 <= OUT (regs b) < 2 ^ 32 /\ 0 <= 1 < 32 /\ 0 <= 0xf0 < 2 ^ 32 /\
  (gpio_toggle 1 ;; gpio_toggle 1) b =
    Ret (tt, {| regs := regs b; answers := [];
                log := [Load R_OUT 0x0a; Store R_OUT 0x08;
                        Load R_OUT 0x08; Store R_OUT 0x0a] |}).
Proof.
  intros b.
  assert (Hout : 0 <= OUT (regs b) < 2 ^ 32) by (simpl; lia).
  assert (Hp : 0 <= 1 < 32) by lia.
  assert (Hm : 0 <= 0xf0 < 2 ^ 32) by lia.
  destruct (gpio_toggle_twice_restores b 1 0xf0 Hout Hp Hm) as (_ & Hpin & _).
  exact (conj Hout (conj Hp (conj Hm Hpin))).
Defined.

End GpioToggle.

(** ** SPI: modes, clock and waits *)

Section SpiFurther.
Import Spi.

(** X6. [spi_set_mode] follows [enum SpiMode]: for a mode in 0..3 it
    stores the high bit of the mode to CPOL and then the low bit to CPHA,
    which [spi_get_cpol] and [spi_get_cpha] read back, and touches nothing
    else; for any other argument it makes no access at all. *)
Theorem spi_set_mode_follows_enum (b : bus reg SpiController) (mode : Z) :
  (0 <= mode <= 3 ->
   (exists b1, (spi_set_mode mode ;; spi_get_cpol) b = Ret (mode / 2, b1)) /\
   (exists b2, (spi_set_mode mode ;; spi_get_cpha) b = Ret (mode mod 2, b2)) /\
   spi_set_mode mode b =
     Ret (tt, {| regs := {| CPOL := mode / 2; CPHA := mode mod 2;
                            CHIP_SELECT := CHIP_SELECT (regs b);
                            CLOCK_CONF := CLOCK_CONF (regs b);
                            WDATA := WDATA (regs b); RDATA := RDATA (regs b);
                            BUSY := BUSY (regs b) |};
                 answers := answers b;
                 log := log b ++ [Store R_CPOL (mode / 2);
                                  Store R_CPHA (mode mod 2)] |})) /\
  (mode < 0 \/ 3 < mode -> spi_set_mode mode b = Ret (tt, b)).
Proof.
  split.
  - intros Hm.
    assert (Hcases : mode = 0 \/ mode = 1 \/ mode = 2 \/ mode = 3) by lia.
    destruct Hcases as [-> | [-> | [-> | ->]]];
      (split; [eexists; reflexivity |]);
      (split; [eexists; reflexivity |]);
      unfold spi_set_mode, spi_set_cpol, spi_set_cpha, bind, store; simpl;
      rewrite <- app_assoc; reflexivity.
  - intros Hm. unfold spi_set_mode, SPI_MODE0_CPOL0_CPHA0,
      SPI_MODE1_CPOL0_CPHA1, SPI_MODE2_CPOL1_CPHA0, SPI_MODE3_CPOL1_CPHA1.
    destruct (Z.eqb_spec mode 0); [lia |].
    destruct (Z.eqb_spec mode 1); [lia |].
    destruct (Z.eqb_spec mode 2); [lia |].
    destruct (Z.eqb_spec mode 3); [lia |].
    reflexivity.
Qed.

Lemma spi_set_mode_follows_enum_witness :
  let b := {| regs := {| CPOL := 0; CPHA := 0; CHIP_SELECT := 0xffffffff;
                         CLOCK_CONF := 0; WDATA := 0; RDATA := 0; BUSY := 0 |};
              answers := []; log := [] |} in
  0 <= 2 <= 3 /\ (7 < 0 \/ 3 < 7) /\
  (exists b1, (spi_set_mode 2 ;; spi_get_cpol) b = Ret (1, b1)) /\
  (exists b2, (spi_set_mode 2 ;; spi_get_cpha) b = Ret (0, b2)) /\
  spi_set_mode 7 b = Ret (tt, b).
Proof.
  intros b.
  assert (Hm : 0 <= 2 <= 3) by lia.
  assert (Hbad : 7 < 0 \/ 3 < 7) by (right; lia).
  destruct (spi_set_mode_follows_enum b 2) as [Hin _].
  destruct (Hin Hm) as (Hpol & Hpha & _).
  destruct (spi_set_mode_follows_enum b 7) as [_ Hout].
  exact (conj Hm (conj Hbad (conj Hpol (conj Hpha (Hout Hbad))))).
Defined.

(** X7. With CPOL and CPHA in {0, 1}, [spi_get_mode] returns
    [2 * CPHA + CPOL], a value in 0..3, and changes no register; giving
    that value back to [spi_set_mode] exchanges CPOL and CPHA and leaves
    the other registers alone, so that reading the mode and setting it
    again keeps the configuration only when the two fields are equal. *)
Theorem spi_get_mode_then_set_mode_exchanges
  (b : bus reg SpiController) :
  clock_fields_ok (regs b) ->
  exists b1 b2,
    spi_get_mode b = Ret (2 * CPHA (regs b) + CPOL (regs b), b1) /\
    0 <= 2 * CPHA (regs b) + CPOL (regs b) <= 3 /\
    regs b1 = regs b /\
    (mode <- spi_get_mode ;; spi_set_mode mode) b = Ret (tt, b2) /\
    regs b2 = {| CPOL := CPHA (regs b); CPHA := CPOL (regs b);
                 CHIP_SELECT := CHIP_SELECT (regs b);
                 CLOCK_CONF := CLOCK_CONF (regs b);
                 WDATA := WDATA (regs b); RDATA := RDATA (regs b);
                 BUSY := BUSY (regs b) |}.
Proof.
  intros [Hpol Hpha].
  destruct b as [[cpol cpha cs cc wd rd bs] ans lg]. simpl in Hpol, Hpha.
  destruct Hpol as [-> | ->]; destruct Hpha as [-> | ->];
    do 2 eexists; simpl;
    (split; [reflexivity |]); (split; [lia |]); (split; [reflexivity |]);
    (split; reflexivity).
Qed.

Lemma spi_get_mode_then_set_mode_exchanges_witness :
  let b := {| regs := {| CPOL := 1; CPHA := 0; CHIP_SELECT := 0xffffffff;
                         CLOCK_CONF := 3; WDATA := 0; RDATA := 0; BUSY := 0 |};
              answers := []; log := [] |} in
  clock_fields_ok (regs b) /\
  exists b1 b2,
    spi_get_mode b = Ret (1, b1) /\
    (mode <- spi_get_mode ;; spi_set_mode mode) b = Ret (tt, b2) /\
    CPOL (regs b2) = 0 /\ CPHA (regs b2) = 1.
Proof.
  intros b.
  assert (Hok : clock_fields_ok (regs b)).
  { split; [right; reflexivity | left; reflexivity]. }
  destruct (spi_get_mode_then_set_mode_exchanges b Hok)
    as (b1 & b2 & Hget & _ & _ & Hset & Hregs).
  split; [exact Hok |].
  exists b1, b2.
  split; [exact Hget |]. split; [exact Hset |].
  rewrite Hregs. split; reflexivity.
Defined.

(** X8. The clock configuration round-trips: after [spi_set_clock] with a
    value of type [uint8_t], [spi_get_clock] returns that value, and only
    CLOCK_CONF has changed. *)
Theorem spi_clock_round_trip (b : bus reg SpiController) (conf : Z) :
  0 <= conf < 2 ^ 8 ->
  exists b',
    (spi_set_clock conf ;; spi_get_clock) b = Ret (conf, b') /\
    regs b' = {| CPOL := CPOL (regs b); CPHA := CPHA (regs b);
                 CHIP_SELECT := CHIP_SELECT (regs b); CLOCK_CONF := conf;
                 WDATA := WDATA (regs b); RDATA := RDATA (regs b);
                 BUSY := BUSY (regs b) |} /\
    answers b' = answers b.
Proof.
  intros Hc. eexists.
  unfold spi_set_clock, spi_get_clock, bind, store, load, ret. simpl.
  rewrite (uint32_small conf) by lia.
  rewrite (uint8_small conf) by exact Hc.
  repeat split.
Qed.

Lemma spi_clock_round_trip_witness :
  let b := {| regs := {| CPOL := 0; CPHA := 0; CHIP_SELECT := 0xffffffff;
                         CLOCK_CONF := 0; WDATA := 0; RDATA := 0; BUSY := 0 |};
              answers := []; log := [] |} in
  0 <= 255 < 2 ^ 8 /\
  exists b', (spi_set_clock 255 ;; spi_get_clock) b = Ret (255, b').
Proof.
  intros b.
  assert (Hc : 0 <= 255 < 2 ^ 8) by lia.
  destruct (spi_clock_round_trip b 255 Hc) as (b' & Hrun & _).
  exact (conj Hc (ex_intro _ b' Hrun)).
Defined.

End SpiFurther.

Section SpiWaits.
Import Spi.

Lemma polls_snoc {reg : Type} (r : reg) (ws : list Z) (z : Z) :
  polls r (ws ++ [z]) = polls r ws ++ [Load r (uint32 z)].
Proof. unfold polls. rewrite map_app. reflexivity. Qed.

Lemma waiting_no_release (vs : list Z) :
  Forall (fun v => uint32 v <> 0) vs -> ~ Exists (fun v => uint32 v = 0) vs.
Proof.
  intros Hall Hex. apply Exists_exists in Hex. destruct Hex as (v & Hin & Hv).
  rewrite Forall_forall in Hall. exact (Hall v Hin Hv).
Qed.

(** X9. [spi_wait_ready] returns exactly when some answer of the device to
    the polls of BUSY is 0.  It then has taken the answers up to the first
    0 and no more, has made one load of BUSY per answer taken and no
    store, and has left every register but BUSY as it was. *)
Theorem spi_wait_ready_returns_iff_ready (b : bus reg SpiController) :
  ((exists b', spi_wait_ready b = Ret (tt, b')) <->
   Exists (fun v => uint32 v = 0) (answers b)) /\
  (forall b', spi_wait_ready b = Ret (tt, b') ->
     exists waits z,
       answers b = waits ++ z :: answers b' /\
       Forall (fun v => uint32 v <> 0) waits /\ uint32 z = 0 /\
       log b' = log b ++ polls R_BUSY (waits ++ [z]) /\
       stores (polls R_BUSY (waits ++ [z])) = [] /\
       regs b' = set R_BUSY 0 (regs b)) /\
  (~ Exists (fun v => uint32 v = 0) (answers b) -> spi_wait_ready b = Blocked).
Proof.
  destruct b as [s ans lg]. simpl.
  destruct (first_release (fun busy => busy =? 0) ans)
    as [Hw | (waits & z & rest & Heq & Hw & Hz)].
  - apply spi_waiting_iff in Hw.
    pose proof (spi_wait_ready_blocked s lg ans Hw) as Hrun.
    split; [| split].
    + split.
      * intros [b' H]. rewrite Hrun in H. discriminate H.
      * intros Hex. exfalso. exact (waiting_no_release ans Hw Hex).
    + intros b' H. rewrite Hrun in H. discriminate H.
    + intros _. exact Hrun.
  - apply spi_waiting_iff in Hw. apply Z.eqb_eq in Hz. subst ans.
    pose proof (spi_wait_ready_returns s lg waits z rest Hw Hz) as Hrun.
    assert (Hex : Exists (fun v => uint32 v = 0) (waits ++ z :: rest)).
    { apply Exists_app. right. apply Exists_cons_hd. exact Hz. }
    split; [| split].
    + split; [intros _; exact Hex | intros _; eexists; exact Hrun].
    + intros b' H. rewrite Hrun in H. injection H as <-. simpl.
      exists waits, z.
      split; [reflexivity |]. split; [exact Hw |]. split; [exact Hz |].
      split; [rewrite polls_snoc, Hz; reflexivity |].
      split; [| reflexivity].
      rewrite <- (app_nil_r (polls R_BUSY (waits ++ [z]))).
      exact (stores_polls R_BUSY (waits ++ [z]) []).
    + intros Hno. contradiction.
Qed.

(** X10. Two [spi_write] calls in a row do not overlap: the second byte is
    stored right after the load of BUSY that read 0 and ended the first
    call, and the pair is blocked as long as either transfer is not seen
    complete. *)
Theorem spi_writes_in_sequence
  (s : SpiController) (lg : list (access reg)) (first second : Z)
  (w1 w2 : list Z) (z1 z2 : Z) (rest : list Z) :
  0 <= first < 2 ^ 8 -> 0 <= second < 2 ^ 8 ->
  Forall (fun v => uint32 v <> 0) w1 -> uint32 z1 = 0 ->
  Forall (fun v => uint32 v <> 0) w2 -> uint32 z2 = 0 ->
  (spi_write first ;; spi_write second)
    {| regs := s; answers := w1 ++ z1 :: w2 ++ z2 :: rest; log := lg |} =
    Ret (tt, {| regs := transferred s second; answers := rest;
                log := lg ++ Store R_WDATA first
                         :: polls R_BUSY w1
                         ++ Load R_BUSY 0
                         :: Store R_WDATA second
                         :: polls R_BUSY w2 ++ [Load R_BUSY 0] |}) /\
  (spi_write first ;; spi_write second)
    {| regs := s; answers := w1; log := lg |} = Blocked /\
  (spi_write first ;; spi_write second)
    {| regs := s; answers := w1 ++ z1 :: w2; log := lg |} = Blocked.
Proof.
  intros Hf Hs Hw1 Hz1 Hw2 Hz2.
  split; [| split].
  - unfold bind. rewrite spi_write_returns by assumption.
    rewrite spi_write_returns by assumption.
    rewrite (uint32_small first), (uint32_small second) by lia.
    simpl. rewrite <- !app_assoc. simpl. rewrite <- !app_assoc. reflexivity.
  - unfold bind. rewrite spi_write_blocked by assumption. reflexivity.
  - unfold bind. rewrite spi_write_returns by assumption.
    rewrite spi_write_blocked by assumption. reflexivity.
Qed.

Lemma spi_writes_in_sequence_witness :
  let s := {| CPOL := 0; CPHA := 0; CHIP_SELECT := 0; CLOCK_CONF := 0;
              WDATA := 0; RDATA := 0; BUSY := 0 |} in
  0 <= 0x9f < 2 ^ 8 /\ 0 <= 0x00 < 2 ^ 8 /\
  Forall (fun v => uint32 v <> 0) [1] /\ uint32 0 = 0 /\
  Forall (fun v => uint32 v <> 0) [] /\
  (spi_write 0x9f ;; spi_write 0x00)
    {| regs := s; answers := [1; 0; 0]; log := [] |} =
    Ret (tt, {| regs := transferred s 0x00; answers := [];
                log := [Store R_WDATA 0x9f; Load R_BUSY 1; Load R_BUSY 0;
                        Store R_WDATA 0x00; Load R_BUSY 0] |}).
Proof.
  intros s.
  assert (Hf : 0 <= 0x9f < 2 ^ 8) by lia.
  assert (Hs : 0 <= 0x00 < 2 ^ 8) by lia.
  assert (Hw1 : Forall (fun v => uint32 v <> 0) [1]).
  { apply Forall_cons; [intros H; vm_compute in H; discriminate H |].
    apply Forall_nil. }
  assert (Hz : uint32 0 = 0) by reflexivity.
  assert (Hw2 : Forall (fun v => uint32 v <> 0) []) by apply Forall_nil.
  destruct (spi_writes_in_sequence s [] 0x9f 0x00 [1] [] 0 0 []
              Hf Hs Hw1 Hz Hw2 Hz) as (Hrun & _).
  exact (conj Hf (conj Hs (conj Hw1 (conj Hz (conj Hw2 Hrun))))).
Defined.

End SpiWaits.

(** ** MTimer: counter, compare and enable *)

Section MTimerFurther.
Import MTimer.

Lemma counter_value_sum (s : MTimerController) :
  0 <= MTIMEL s < 2 ^ 32 ->
  counter_value s = MTIMEH s * 2 ^ 32 + MTIMEL s.
Proof. intros Hl. unfold counter_value. apply join_words. exact Hl. Qed.

(** X11. [mtimer_set_counter] stores the low word to MTIMEL and then the
    high word to MTIMEH, after which the counter value is the value given;
    between the two stores the counter shows the old high word over the new
    low word.  The compare value, CR and the answers of the device are left
    alone, and [mtimer_clear_counter] is [mtimer_set_counter] of 0. *)
Theorem mtimer_set_counter_round_trip
  (b : bus reg MTimerController) (new_value : Z) :
  0 <= new_value < 2 ^ 64 ->
  exists b' s1 s2,
    mtimer_set_counter new_value b = Ret (tt, b') /\
    log b' = log b ++ [Store R_MTIMEL (new_value mod 2 ^ 32);
                       Store R_MTIMEH (new_value / 2 ^ 32)] /\
    snapshots (regs b) [Store R_MTIMEL (new_value mod 2 ^ 32);
                        Store R_MTIMEH (new_value / 2 ^ 32)] = [s1; s2] /\
    regs b' = s2 /\
    counter_value s1 = MTIMEH (regs b) * 2 ^ 32 + new_value mod 2 ^ 32 /\
    counter_value s2 = new_value /\
    MTIMECMPL s2 = MTIMECMPL (regs b) /\ MTIMECMPH s2 = MTIMECMPH (regs b) /\
    CR s2 = CR (regs b) /\
    answers b' = answers b /\
    mtimer_clear_counter b = mtimer_set_counter 0 b.
Proof.
  intros Hn.
  assert (Hlo : 0 <= new_value mod 2 ^ 32 < 2 ^ 32).
  { apply Z.mod_pos_bound. lia. }
  pose proof (Z.div_mod new_value (2 ^ 32) ltac:(lia)) as Hdm.
  do 3 eexists.
  split.
  { unfold mtimer_set_counter, bind, store. simpl.
    rewrite high_word by exact Hn. rewrite low_word.
    rewrite <- app_assoc. reflexivity. }
  split; [reflexivity |].
  split; [reflexivity |].
  split; [reflexivity |].
  split; [rewrite counter_value_sum by (simpl; exact Hlo); reflexivity |].
  split; [rewrite counter_value_sum by (simpl; exact Hlo); simpl; lia |].
  repeat split.
Qed.

Lemma mtimer_set_counter_round_trip_witness :
  let s := {| CR := 1; MTIMEL := 0xffffffff; MTIMEH := 0;
              MTIMECMPL := 0x10; MTIMECMPH := 2 |} in
  let b := {| regs := s; answers := []; log := [] |} in
  0 <= 0x300000004 < 2 ^ 64 /\
  exists b' s1 s2,
    mtimer_set_counter 0x300000004 b = Ret (tt, b') /\
    log b' = [Store R_MTIMEL 4; Store R_MTIMEH 3] /\
    snapshots s (log b') = [s1; s2] /\
    counter_value s1 = 4 /\
    counter_value s2 = 0x300000004.
Proof.
  intros s b.
  assert (Hn : 0 <= 0x300000004 < 2 ^ 64) by lia.
  destruct (mtimer_set_counter_round_trip b 0x300000004 Hn)
    as (b' & s1 & s2 & Hrun & Hlog & Hsnap & _ & H1 & H2 & _).
  split; [exact Hn |].
  exists b', s1, s2.
  split; [exact Hrun |]. split; [exact Hlog |].
  split; [rewrite Hlog; exact Hsnap |].
  split; [exact H1 | exact H2].
Defined.

(** X12. [mtimer_get_counter] takes two answers of the device, MTIMEL then
    MTIMEH, and is blocked without them.  Its result is the counter value
    [(MTIMEH << 32) | MTIMEL] of the words read exactly when the high word
    read is 0; with any other high word the result is smaller. *)
Theorem mtimer_get_counter_exact_iff_high_zero
  (s : MTimerController) (lg : list (access reg)) (l h : Z) (rest : list Z) :
  (exists v b',
     mtimer_get_counter {| regs := s; answers := l :: h :: rest; log := lg |}
       = Ret (v, b') /\
     MTIMEL (regs b') = uint32 l /\ MTIMEH (regs b') = uint32 h /\
     answers b' = rest /\
     (uint32 h = 0 -> v = counter_value (regs b')) /\
     (uint32 h <> 0 -> v < counter_value (regs b'))) /\
  mtimer_get_counter {| regs := s; answers := [l]; log := lg |} = Blocked /\
  mtimer_get_counter {| regs := s; answers := []; log := lg |} = Blocked.
Proof.
  split; [| split; reflexivity].
  pose proof (uint32_word l) as Hl. pose proof (uint32_word h) as Hh.
  exists (Z.lor (uint64 (Z.shiftl (uint32 h) 31)) (uint32 l)).
  exists {| regs := {| CR := CR s; MTIMEL := uint32 l; MTIMEH := uint32 h;
                       MTIMECMPL := MTIMECMPL s; MTIMECMPH := MTIMECMPH s |};
            answers := rest;
            log := lg ++ [Load R_MTIMEL (uint32 l); Load R_MTIMEH (uint32 h)] |}.
  split.
  { unfold mtimer_get_counter, bind, load, ret. simpl.
    rewrite <- app_assoc. reflexivity. }
  split; [reflexivity |]. split; [reflexivity |]. split; [reflexivity |].
  remember (uint32 l) as l' eqn:El. remember (uint32 h) as h' eqn:Eh.
  rewrite counter_value_sum by exact Hl. cbn [MTIMEL MTIMEH regs].
  assert (Hsh : uint64 (Z.shiftl h' 31) = h' * 2 ^ 31).
  { rewrite Z.shiftl_mul_pow2 by lia. unfold uint64. apply Z.mod_small. nia. }
  rewrite Hsh.
  split.
  - intros Hz. rewrite Hz. simpl. reflexivity.
  - intros Hnz.
    pose proof (Z.add_lor_land (h' * 2 ^ 31) l') as Hadd.
    assert (Hland : 0 <= Z.land (h' * 2 ^ 31) l').
    { apply Z.land_nonneg. left. nia. }
    nia.
Qed.

Lemma mtimer_set_compare_run
  (s : MTimerController) (ans : list Z) (lg : list (access reg))
  (new_value : Z) :
  0 <= new_value < 2 ^ 64 ->
  mtimer_set_compare new_value {| regs := s; answers := ans; log := lg |} =
    Ret (tt, {| regs := {| CR := CR s; MTIMEL := MTIMEL s; MTIMEH := MTIMEH s;
                           MTIMECMPL := new_value mod 2 ^ 32;
                           MTIMECMPH := new_value / 2 ^ 32 |};
                answers := ans;
                log := lg ++ [Store R_MTIMECMPL 0xFFFFFFFF;
                              Store R_MTIMECMPH (new_value / 2 ^ 32);
                              Store R_MTIMECMPL (new_value mod 2 ^ 32)] |}).
Proof.
  intros Hn. unfold mtimer_set_compare, bind, store. simpl.
  rewrite high_word by exact Hn. rewrite low_word.
  change (uint32 (-1)) with 0xFFFFFFFF.
  rewrite <- !app_assoc. reflexivity.
Qed.

(** X13. Of two [mtimer_set_compare] calls in a row the last one decides:
    the registers are those the second call alone leaves and the compare
    value is its argument.  The accesses are six stores and nothing else,
    the three of the first call and then the three of the second, and
    neither call touches CR, the counter registers or the answers of the
    device. *)
Theorem mtimer_set_compare_last_call_wins
  (b : bus reg MTimerController) (first second : Z) :
  0 <= first < 2 ^ 64 -> 0 <= second < 2 ^ 64 ->
  exists b1 b2,
    mtimer_set_compare second b = Ret (tt, b1) /\
    (mtimer_set_compare first ;; mtimer_set_compare second) b = Ret (tt, b2) /\
    regs b2 = regs b1 /\
    compare_value (regs b2) = second /\
    CR (regs b2) = CR (regs b) /\
    MTIMEL (regs b2) = MTIMEL (regs b) /\ MTIMEH (regs b2) = MTIMEH (regs b) /\
    answers b2 = answers b /\
    log b2 = log b ++ [Store R_MTIMECMPL 0xFFFFFFFF;
                       Store R_MTIMECMPH (first / 2 ^ 32);
                       Store R_MTIMECMPL (first mod 2 ^ 32);
                       Store R_MTIMECMPL 0xFFFFFFFF;
                       Store R_MTIMECMPH (second / 2 ^ 32);
                       Store R_MTIMECMPL (second mod 2 ^ 32)].
Proof.
  intros Hf Hs. destruct b as [s ans lg].
  assert (Hlo : 0 <= second mod 2 ^ 32 < 2 ^ 32).
  { apply Z.mod_pos_bound. lia. }
  pose proof (Z.div_mod second (2 ^ 32) ltac:(lia)) as Hdm.
  do 2 eexists.
  split; [apply mtimer_set_compare_run; exact Hs |].
  split.
  { unfold bind. rewrite mtimer_set_compare_run by exact Hf.
    apply mtimer_set_compare_run. exact Hs. }
  cbn [regs answers log CR MTIMEL MTIMEH].
  split; [reflexivity |].
  split.
  { rewrite compare_value_sum by exact Hlo.
    cbn [MTIMECMPL MTIMECMPH]. lia. }
  split; [reflexivity |]. split; [reflexivity |]. split; [reflexivity |].
  split; [reflexivity |].
  rewrite <- app_assoc. reflexivity.
Qed.

Lemma mtimer_set_compare_last_call_wins_witness :
  let s := {| CR := 1; MTIMEL := 7; MTIMEH := 0;
              MTIMECMPL := 0x10; MTIMECMPH := 2 |} in
  let b := {| regs := s; answers := [8; 0]; log := [] |} in
  0 <= 0x500000003 < 2 ^ 64 /\ 0 <= 0x20 < 2 ^ 64 /\
  exists b2,
    (mtimer_set_compare 0x500000003 ;; mtimer_set_compare 0x20) b
      = Ret (tt, b2) /\
    compare_value (regs b2) = 0x20 /\
    answers b2 = [8; 0] /\
    log b2 = [Store R_MTIMECMPL 0xFFFFFFFF; Store R_MTIMECMPH 5;
              Store R_MTIMECMPL 3; Store R_MTIMECMPL 0xFFFFFFFF;
              Store R_MTIMECMPH 0; Store R_MTIMECMPL 0x20].
Proof.
  intros s b.
  assert (Hf : 0 <= 0x500000003 < 2 ^ 64) by lia.
  assert (Hs : 0 <= 0x20 < 2 ^ 64) by lia.
  destruct (mtimer_set_compare_last_call_wins b 0x500000003 0x20 Hf Hs)
    as (b1 & b2 & _ & Hrun & _ & Hcmp & _ & _ & _ & Hans & Hlog).
  split; [exact Hf |]. split; [exact Hs |].
  exists b2.
  exact (conj Hrun (conj Hcmp (conj Hans Hlog))).
Defined.

End MTimerFurther.

Section MTimerEnable.
Import MTimer.





End MTimerEnable.

(** ** UART: polls and strings *)

Section UartFurther.
Import Uart.

Lemma uart_waiting_iff (vs : list Z) :
  waiting (fun ready => ready =? 1) vs <-> Forall (fun v => uint32 v <> 1) vs.
Proof.
  unfold waiting. rewrite !Forall_forall.
  split; intros H v Hv; specialize (H v Hv); apply Z.eqb_neq; exact H.
Qed.


(** X15. [uart_write] returns exactly when some answer of the device to
    the polls of READY is 1; any other value, zero or not, keeps it
    waiting.  It then has taken the answers up to the first 1 and no more,
    has made one load of READY per answer taken, and has stored the byte to
    WDATA last. *)
Theorem uart_write_returns_iff_ready
  (b : bus reg UartController) (data : Z) :
  ((exists b', uart_write data b = Ret (tt, b')) <->
   Exists (fun v => uint32 v = 1) (answers b)) /\
  (forall b', uart_write data b = Ret (tt, b') ->
     exists waits v,
       answers b = waits ++ v :: answers b' /\
       Forall (fun w => uint32 w <> 1) waits /\ uint32 v = 1 /\
       log b' = log b ++ polls R_READY (waits ++ [v])
                      ++ [Store R_WDATA (uint32 data)] /\
       regs b' = set R_WDATA (uint32 data) (set R_READY 1 (regs b))) /\
  (~ Exists (fun v => uint32 v = 1) (answers b) ->
   uart_write data b = Blocked).
Proof.
  destruct b as [s ans lg]. simpl.
  destruct (first_release (fun ready => ready =? 1) ans)
    as [Hw | (waits & v & rest & Heq & Hw & Hv)].
  - pose proof (uart_write_blocked s lg data ans Hw) as Hrun.
    apply uart_waiting_iff in Hw.
    split; [| split].
    + split.
      * intros [b' H]. rewrite Hrun in H. discriminate H.
      * intros Hex. exfalso. apply Exists_exists in Hex.
        destruct Hex as (x & Hin & Hx).
        rewrite Forall_forall in Hw. exact (Hw x Hin Hx).
    + intros b' H. rewrite Hrun in H. discriminate H.
    + intros _. exact Hrun.
  - apply Z.eqb_eq in Hv. subst ans.
    pose proof (uart_write_returns s lg data waits v rest Hw Hv) as Hrun.
    apply uart_waiting_iff in Hw.
    assert (Hex : Exists (fun x => uint32 x = 1) (waits ++ v :: rest)).
    { apply Exists_app. right. apply Exists_cons_hd. exact Hv. }
    split; [| split].
    + split; [intros _; exact Hex | intros _; eexists; exact Hrun].
    + intros b' H. rewrite Hrun in H. injection H as <-. simpl.
      exists waits, v.
      split; [reflexivity |]. split; [exact Hw |]. split; [exact Hv |].
      split; [| reflexivity].
      rewrite polls_snoc, Hv, <- !app_assoc. reflexivity.
    + intros Hno. contradiction.
Qed.



(** X17. On a buffer that holds no null byte [uart_write_string] never
    returns: it is blocked while the device has answered READY = 1 fewer
    times than the buffer has bytes, and once every byte is written it
    reads past the end of the buffer. *)
Theorem uart_write_string_without_null_never_returns
  (buffer : list ascii) (b : bus reg UartController) :
  ~ In zero buffer ->
  ((List.length buffer <= releases (fun ready => (ready =? 1)%Z) (answers b))%nat ->
   uart_write_string buffer b = Undefined) /\
  ((releases (fun ready => (ready =? 1)%Z) (answers b) < List.length buffer)%nat ->
   uart_write_string buffer b = Blocked).
Proof.
  revert b.
  induction buffer as [| c buffer IH]; intros b Hnz.
  - split; [intros _; reflexivity | simpl; lia].
  - assert (Hc : c <> zero) by (intros E; apply Hnz; left; exact E).
    assert (Hbuf : ~ In zero buffer) by (intros Hin; apply Hnz; right; exact Hin).
    destruct b as [s ans lg].
    apply char_code_zero in Hc. simpl. rewrite Hc. unfold bind at 1 2.
    destruct (first_release (fun ready => ready =? 1) ans)
      as [Hw | (waits & v & rest & Heq & Hw & Hv)].
    + rewrite uart_write_blocked by exact Hw.
      rewrite releases_waiting by exact Hw.
      split; [lia | reflexivity].
    + subst ans. rewrite releases_split by assumption.
      apply Z.eqb_eq in Hv.
      rewrite uart_write_returns by assumption.
      destruct (IH {| regs := set R_WDATA (uint32 (char_code c)) (set R_READY 1 s);
                      answers := rest;
                      log := lg ++ polls R_READY waits
                               ++ [Load R_READY 1;
                                   Store R_WDATA (uint32 (char_code c))] |}
                  Hbuf) as [Hundef Hblocked].
      simpl in Hundef, Hblocked.
      split; intros Hrel; [apply Hundef | apply Hblocked]; lia.
Qed.

Lemma uart_write_string_without_null_never_returns_witness :
  let s := {| WDATA := 0; RDATA := 0; READY := 0; RXSTATUS := 0 |} in
  ~ In zero (list_ascii_of_string "AB") /\
  uart_write_string (list_ascii_of_string "AB")
    {| regs := s; answers := [1; 0; 1; 1]; log := [] |} = Undefined /\
  uart_write_string (list_ascii_of_string "AB")
    {| regs := s; answers := [1; 0; 0]; log := [] |} = Blocked.
Proof.
  intros s.
  assert (Hnz : ~ In zero (list_ascii_of_string "AB")).
  { simpl. intros [H | [H | H]]; [discriminate H | discriminate H | exact H]. }
  destruct (uart_write_string_without_null_never_returns (list_ascii_of_string "AB")
              {| regs := s; answers := [1; 0; 1; 1]; log := [] |} Hnz)
    as [Hundef _].
  destruct (uart_write_string_without_null_never_returns (list_ascii_of_string "AB")
              {| regs := s; answers := [1; 0; 0]; log := [] |} Hnz)
    as [_ Hblocked].
  split; [exact Hnz |].
  split; [apply Hundef | apply Hblocked]; vm_compute; repeat constructor.
Defined.

Lemma bind_congruence {reg file A B : Type} (m : io reg file A)
  (k k' : A -> io reg file B) (b : bus reg file) :
  (forall a b', k a b' = k' a b') -> bind m k b = bind m k' b.
Proof.
  intros Hk. unfold bind. destruct (m b) as [[a b'] | |];
    [apply Hk | reflexivity | reflexivity].
Qed.

(** X18. Writing a string is writing its parts one after the other: for
    bytes [first] without a null byte, [uart_write_string] on [first]
    followed by [second] and a null byte behaves, on every device, as
    [uart_write_string] on [first] then [uart_write_string] on [second]. *)
Theorem uart_write_string_concatenation
  (first second post : list ascii) (b : bus reg UartController) :
  ~ In zero first ->
  uart_write_string (first ++ second ++ zero :: post) b =
    (uart_write_string (first ++ [zero]) ;;
     uart_write_string (second ++ zero :: post)) b.
Proof.
  revert b.
  induction first as [| c first IH]; intros b Hnz.
  - reflexivity.
  - assert (Hc : c <> zero) by (intros E; apply Hnz; left; exact E).
    assert (Hfirst : ~ In zero first)
      by (intros Hin; apply Hnz; right; exact Hin).
    apply char_code_zero in Hc. simpl. rewrite Hc.
    rewrite bind_assoc. apply bind_congruence.
    intros [] b1. apply IH. exact Hfirst.
Qed.

Lemma uart_write_string_concatenation_witness :
  let s := {| WDATA := 0; RDATA := 0; READY := 0; RXSTATUS := 0 |} in
  let b := {| regs := s; answers := [0; 1; 1; 1]; log := [] |} in
  ~ In zero (list_ascii_of_string "AB") /\
  uart_write_string (c_str "ABC") b =
    (uart_write_string (c_str "AB") ;; uart_write_string (c_str "C")) b.
Proof.
  intros s b.
  assert (Hnz : ~ In zero (list_ascii_of_string "AB")).
  { simpl. intros [H | [H | H]]; [discriminate H | discriminate H | exact H]. }
  exact (conj Hnz
           (uart_write_string_concatenation
              (list_ascii_of_string "AB") (list_ascii_of_string "C") [] b Hnz)).
Defined.

End UartFurther.

(** ** The waits and the counter read on concrete devices *)

Section FurtherRuns.

Lemma spi_wait_ready_returns_iff_ready_witness :
  let s := {| Spi.CPOL := 0; Spi.CPHA := 0; Spi.CHIP_SELECT := 0;
              Spi.CLOCK_CONF := 0; Spi.WDATA := 0; Spi.RDATA := 0;
              Spi.BUSY := 0 |} in
  let b := {| regs := s; answers := [1; 0; 7]; log := [] |} in
  Exists (fun v => uint32 v = 0) (answers b) /\
  (exists b', Spi.spi_wait_ready b = Ret (tt, b')) /\
  ~ Exists (fun v => uint32 v = 0) [1; 7] /\
  Spi.spi_wait_ready {| regs := s; answers := [1; 7]; log := [] |} = Blocked.
Proof.
  intros s b.
  assert (Hex : Exists (fun v => uint32 v = 0) (answers b)).
  { apply Exists_cons_tl. apply Exists_cons_hd. reflexivity. }
  assert (Hno : ~ Exists (fun v => uint32 v = 0) [1; 7]).
  { intros H. inversion H as [x l Hx | x l Ht]; subst.
    - vm_compute in Hx. discriminate Hx.
    - inversion Ht as [x l Hx | x l Ht']; subst.
      + vm_compute in Hx. discriminate Hx.
      + inversion Ht'. }
  destruct (spi_wait_ready_returns_iff_ready b) as ([_ Hret] & _ & _).
  destruct (spi_wait_ready_returns_iff_ready
              {| regs := s; answers := [1; 7]; log := [] |})
    as (_ & _ & Hblocked).
  exact (conj Hex (conj (Hret Hex) (conj Hno (Hblocked Hno)))).
Defined.

Lemma uart_write_returns_iff_ready_witness :
  let s := {| Uart.WDATA := 0; Uart.RDATA := 0; Uart.READY := 0;
              Uart.RXSTATUS := 0 |} in
  let b := {| regs := s; answers := [2; 0; 1]; log := [] |} in
  Exists (fun v => uint32 v = 1) (answers b) /\
  (exists b', Uart.uart_write 65 b = Ret (tt, b')) /\
  ~ Exists (fun v => uint32 v = 1) [2; 0] /\
  Uart.uart_write 65 {| regs := s; answers := [2; 0]; log := [] |} = Blocked.
Proof.
  intros s b.
  assert (Hex : Exists (fun v => uint32 v = 1) (answers b)).
  { apply Exists_cons_tl. apply Exists_cons_tl. apply Exists_cons_hd.
    reflexivity. }
  assert (Hno : ~ Exists (fun v => uint32 v = 1) [2; 0]).
  { intros H. inversion H as [x l Hx | x l Ht]; subst.
    - vm_compute in Hx. discriminate Hx.
    - inversion Ht as [x l Hx | x l Ht']; subst.
      + vm_compute in Hx. discriminate Hx.
      + inversion Ht'. }
  destruct (uart_write_returns_iff_ready b 65) as ([_ Hret] & _ & _).
  destruct (uart_write_returns_iff_ready
              {| regs := s; answers := [2; 0]; log := [] |} 65)
    as (_ & _ & Hblocked).
  exact (conj Hex (conj (Hret Hex) (conj Hno (Hblocked Hno)))).
Defined.

Lemma mtimer_get_counter_exact_iff_high_zero_witness :
  let s := {| MTimer.CR := 1; MTimer.MTIMEL := 0; MTimer.MTIMEH := 0;
              MTimer.MTIMECMPL := 0; MTimer.MTIMECMPH := 0 |} in
  uint32 0 = 0 /\ uint32 3 <> 0 /\
  (exists v b',
     MTimer.mtimer_get_counter {| regs := s; answers := [5; 0]; log := [] |}
       = Ret (v, b') /\ v = MTimer.counter_value (regs b')) /\
  (exists v b',
     MTimer.mtimer_get_counter {| regs := s; answers := [5; 3]; log := [] |}
       = Ret (v, b') /\ v < MTimer.counter_value (regs b')).
Proof.
  intros s.
  assert (Hz : uint32 0 = 0) by reflexivity.
  assert (Hnz : uint32 3 <> 0) by (intros H; vm_compute in H; discriminate H).
  destruct (mtimer_get_counter_exact_iff_high_zero s [] 5 0 [])
    as ((v0 & b0 & Hrun0 & _ & _ & _ & Hexact & _) & _).
  destruct (mtimer_get_counter_exact_iff_high_zero s [] 5 3 [])
    as ((v3 & b3 & Hrun3 & _ & _ & _ & _ & Hless) & _).
  split; [exact Hz |]. split; [exact Hnz |].
  split.
  - exists v0, b0. exact (conj Hrun0 (Hexact Hz)).
  - exists v3, b3. exact (conj Hrun3 (Hless Hnz)).
Defined.

End FurtherRuns.
